(** * DEFI-RADAR: the dashboard generator [generate.py]

    A shallow embedding of the generator's pipeline
    (fetch, match, format, render, write) and the properties of it that the
    specification states.

    Conventions of the embedding.
    - A Python [str] is a [string]; [lower], [upper] and [in] act on the
      ASCII letters, which is where the registry's matching keys live.
    - A JSON number is a binary64 value ([float], the kernel's primitive
      floats).  An integer literal of the feed stands for the double of the
      same value; Python's mixed comparison, true division and [format]
      agree with that for every integer up to 2^53 in magnitude.
    - A pool object is read only through [p.get(k)]: a missing key and a key
      bound to [null] both read as [None].  The test [if pool] is the test
      for [None]: a dictionary is falsy only when it is empty, an empty
      dictionary reads [None] at every key, and no descriptor of the
      registry matches one.
    - The text of the page template between the interpolated values is
      constant; a rendered page is the record of the interpolated values.
    - [print] writes messages carrying what was interpolated. *)

From Stdlib Require Import ZArith Floats Ascii String List Bool Lia.
From Stdlib Require Import Decimal DecimalString.
From Stdlib Require Import Sorting.Permutation Sorting.Sorted.
From stdpp Require Import base option list gmap strings pretty.

#[local] Set Warnings "-inexact-float".

Local Open Scope string_scope.
Local Open Scope Z_scope.

(** ** Python strings *)

Module PyStr.

Definition is_upper (c : ascii) : bool :=
  let n := N_of_ascii c in ((65 <=? n) && (n <=? 90))%N.

Definition is_lower (c : ascii) : bool :=
  let n := N_of_ascii c in ((97 <=? n) && (n <=? 122))%N.

Definition lower_char (c : ascii) : ascii :=
  if is_upper c then ascii_of_N (N_of_ascii c + 32) else c.

Definition upper_char (c : ascii) : ascii :=
  if is_lower c then ascii_of_N (N_of_ascii c - 32) else c.

Fixpoint map_chars (f : ascii -> ascii) (s : string) : string :=
  match s with
  | EmptyString => EmptyString
  | String c s' => String (f c) (map_chars f s')
  end.

(** [s.lower()] and [s.upper()] *)
Definition lower : string -> string := map_chars lower_char.
Definition upper : string -> string := map_chars upper_char.

(** [needle in hay] on strings: [needle] occurs as a substring *)
Fixpoint contains (needle hay : string) : bool :=
  String.prefix needle hay ||
  match hay with
  | EmptyString => false
  | String _ hay' => contains needle hay'
  end.

(** [s or ""] for a string read with [get] *)
Definition or_empty (s : option string) : string := default "" s.

(** The two letters are one ASCII letter, in any case, or the same
    character. *)
Definition same_letter (a b : ascii) : bool :=
  Ascii.eqb a b
  || (is_upper a && Ascii.eqb b (ascii_of_N (N_of_ascii a + 32)))
  || (is_upper b && Ascii.eqb a (ascii_of_N (N_of_ascii b + 32))).

(** Equality of strings up to the case of their letters *)
Fixpoint ci_equal (s t : string) : bool :=
  match s, t with
  | EmptyString, EmptyString => true
  | String a s', String b t' => same_letter a b && ci_equal s' t'
  | _, _ => false
  end.

(** [s] equals, up to case, the first [length s] characters of [t] *)
Fixpoint ci_prefix (s t : string) : bool :=
  match s, t with
  | EmptyString, _ => true
  | String a s', String b t' => same_letter a b && ci_prefix s' t'
  | _, EmptyString => false
  end.

(** [needle] occurs in [hay] up to case: at some offset of [hay] *)
Fixpoint ci_contains (needle hay : string) : bool :=
  ci_prefix needle hay ||
  match hay with
  | EmptyString => false
  | String _ hay' => ci_contains needle hay'
  end.

End PyStr.

(** ** Python floats and [format(x, ".Nf")] *)

Module PyFloat.

(** [not v] on a float: both zeros are falsy, NaN is truthy *)
Definition falsy (x : float) : bool := (x =? 0)%float.

(** [v != v] *)
Definition is_nan (x : float) : bool := negb (x =? x)%float.

(** [a >= b] and [a > b] *)
Definition ge (a b : float) : bool := (b <=? a)%float.
Definition gt (a b : float) : bool := (b <? a)%float.

(** The integer nearest to [n / d], the even one on a tie ([0 < d]) *)
Definition round_half_even (n d : Z) : Z :=
  let q := n / d in
  match 2 * (n mod d) ?= d with
  | Lt => q
  | Gt => q + 1
  | Eq => if Z.even q then q else q + 1
  end.

(** [m * 2^e * 10^digits] rounded to an integer *)
Definition scaled (digits : nat) (m : positive) (e : Z) : Z :=
  let n := Z.pos m * 10 ^ Z.of_nat digits in
  if 0 <=? e then n * 2 ^ e else round_half_even n (2 ^ (- e)).

(** A natural number in decimal *)
Definition dec (n : Z) : string :=
  NilZero.string_of_uint (N.to_uint (Z.to_N n)).

Fixpoint zeros (k : nat) : string :=
  match k with O => "" | S k' => String "0" (zeros k') end.

(** [n] written with [digits] digits after the point *)
Definition fixed (digits : nat) (n : Z) : string :=
  let p := 10 ^ Z.of_nat digits in
  let frac := dec (n mod p) in
  dec (n / p) +:+
  match digits with
  | O => ""
  | _ => "." +:+ zeros (digits - String.length frac) +:+ frac
  end.

Definition sign (s : bool) : string := if s then "-" else "".

(** [format(x, ".<digits>f")]: the decimal nearest to the exact value of
    [x], ties to even, the sign kept also on a zero result *)
Definition format_f (digits : nat) (x : float) : string :=
  match Prim2SF x with
  | S754_nan => "nan"
  | S754_infinity s => sign s +:+ "inf"
  | S754_zero s => sign s +:+ fixed digits 0
  | S754_finite s m e => sign s +:+ fixed digits (scaled digits m e)
  end.

End PyFloat.

(** ** The data model *)

(** A protocol descriptor: one entry of the registry. *)
Module Proto.
Record t := {
  name : string; icon : string; iconBg : string; chain : string;
  category : string; risk : string; description : string;
  strategy : string; url : string; accent : string;
  project : string; symbol : string; search_chain : string
}.
End Proto.

(** A pool object of the provider, as [p.get] reads its keys. *)
Module Pool.
Record t := {
  project : option string; chain : option string; symbol : option string;
  apy : option float; apyBase : option float; apyReward : option float;
  tvlUsd : option float
}.
End Pool.

(** A match result: the pair [(proto, pool)] that [main] appends. *)
Definition result : Type := Proto.t * option Pool.t.

Definition PROTOCOLS : list Proto.t :=
  [
    {| Proto.name := "Aave v3";
       Proto.icon := "👻";
       Proto.iconBg := "#b6509e22";
       Proto.chain := "Ethereum";
       Proto.category := "Lending";
       Proto.risk := "low";
       Proto.description := "Leader du lending décentralisé. Déposez USDC/USDT et percevez des intérêts sur la plateforme la plus auditée du marché.";
       Proto.strategy := "USDC supply";
       Proto.url := "https://app.aave.com";
       Proto.accent := "#b6509e";
       Proto.project := "aave-v3";
       Proto.symbol := "USDC";
       Proto.search_chain := "Ethereum" |};
    {| Proto.name := "Morpho";
       Proto.icon := "🦋";
       Proto.iconBg := "#4287f522";
       Proto.chain := "Ethereum";
       Proto.category := "Lending";
       Proto.risk := "low";
       Proto.description := "Protocole peer-to-peer optimisant les taux d'Aave. Meilleurs rendements pour les déposants USDC/USDT.";
       Proto.strategy := "USDC Vault";
       Proto.url := "https://morpho.org";
       Proto.accent := "#4287f5";
       Proto.project := "morpho";
       Proto.symbol := "USDC";
       Proto.search_chain := "Ethereum" |};
    {| Proto.name := "Lido";
       Proto.icon := "🌊";
       Proto.iconBg := "#00a3ff22";
       Proto.chain := "Ethereum";
       Proto.category := "Staking";
       Proto.risk := "low";
       Proto.description := "Leader du liquid staking ETH. Stakez de l'ETH et recevez du stETH utilisable partout dans l'écosystème DeFi.";
       Proto.strategy := "ETH → stETH";
       Proto.url := "https://lido.fi";
       Proto.accent := "#00a3ff";
       Proto.project := "lido";
       Proto.symbol := "STETH";
       Proto.search_chain := "Ethereum" |};
    {| Proto.name := "Curve Finance";
       Proto.icon := "🔵";
       Proto.iconBg := "#3a65b622";
       Proto.chain := "Ethereum";
       Proto.category := "Liquidity";
       Proto.risk := "low";
       Proto.description := "Référence des pools stablecoins. Frais de swap minimes et rendements solides sur le 3pool et tricrypto.";
       Proto.strategy := "3pool";
       Proto.url := "https://curve.fi";
       Proto.accent := "#3a65b6";
       Proto.project := "curve-dex";
       Proto.symbol := "3CRV";
       Proto.search_chain := "Ethereum" |};
    {| Proto.name := "Uniswap v3";
       Proto.icon := "🦄";
       Proto.iconBg := "#ff007a22";
       Proto.chain := "Ethereum";
       Proto.category := "Liquidity";
       Proto.risk := "medium";
       Proto.description := "DEX de référence. Les positions concentrées USDC/ETH 0.05% offrent des rendements élevés pour les LPs actifs.";
       Proto.strategy := "USDC/ETH 0.05%";
       Proto.url := "https://app.uniswap.org";
       Proto.accent := "#ff007a";
       Proto.project := "uniswap-v3";
       Proto.symbol := "USDC";
       Proto.search_chain := "Ethereum" |};
    {| Proto.name := "Pendle Finance";
       Proto.icon := "📐";
       Proto.iconBg := "#0dc8c822";
       Proto.chain := "Ethereum";
       Proto.category := "Yield";
       Proto.risk := "medium";
       Proto.description := "Tokenisation innovante du yield. PT pour taux fixe garanti, YT pour maximiser le rendement variable sur actifs porteurs d'intérêt.";
       Proto.strategy := "PT eETH";
       Proto.url := "https://www.pendle.finance";
       Proto.accent := "#0dc8c8";
       Proto.project := "pendle";
       Proto.symbol := "EETH";
       Proto.search_chain := "Ethereum" |};
    {| Proto.name := "Convex Finance";
       Proto.icon := "⚡";
       Proto.iconBg := "#ff6b0022";
       Proto.chain := "Ethereum";
       Proto.category := "Yield";
       Proto.risk := "medium";
       Proto.description := "Boost des rendements Curve sans immobiliser de CRV. Maximise les récompenses des pools Curve en empilant les rewards cvxCRV.";
       Proto.strategy := "cvxCRV staking";
       Proto.url := "https://www.convexfinance.com";
       Proto.accent := "#ff6b00";
       Proto.project := "convex-finance";
       Proto.symbol := "CVXCRV";
       Proto.search_chain := "Ethereum" |};
    {| Proto.name := "Ethena";
       Proto.icon := "🔷";
       Proto.iconBg := "#00e5ff22";
       Proto.chain := "Ethereum";
       Proto.category := "CDP";
       Proto.risk := "medium";
       Proto.description := "Stablecoin USDe adossé à des positions delta-neutres. Le sUSDe génère du rendement via le funding rate des marchés perpétuels.";
       Proto.strategy := "sUSDe staking";
       Proto.url := "https://www.ethena.fi";
       Proto.accent := "#00e5ff";
       Proto.project := "ethena";
       Proto.symbol := "SUSDE";
       Proto.search_chain := "Ethereum" |};
    {| Proto.name := "Kamino";
       Proto.icon := "🌀";
       Proto.iconBg := "#9945ff22";
       Proto.chain := "Solana";
       Proto.category := "Yield";
       Proto.risk := "medium";
       Proto.description := "Yield automatisé sur Solana. Liquidités concentrées sur Orca/Raydium avec rebalancing automatique des fourchettes de prix.";
       Proto.strategy := "USDC-SOL vault";
       Proto.url := "https://kamino.finance";
       Proto.accent := "#9945ff";
       Proto.project := "kamino-liquidity";
       Proto.symbol := "USDC";
       Proto.search_chain := "Solana" |};
    {| Proto.name := "Yearn Finance";
       Proto.icon := "🏦";
       Proto.iconBg := "#006ae322";
       Proto.chain := "Ethereum";
       Proto.category := "Yield";
       Proto.risk := "low";
       Proto.description := "Vaults automatisés optimisant en continu les stratégies de rendement. Idéal pour du yield passif sans gestion active.";
       Proto.strategy := "yvUSDC vault";
       Proto.url := "https://yearn.fi";
       Proto.accent := "#006ae3";
       Proto.project := "yearn-finance";
       Proto.symbol := "YVUSDC";
       Proto.search_chain := "Ethereum" |}
  ].

(** ** [list.sort] and [sorted]

    Python's sort is stable and compares with [<] only.  It is modelled by a
    stable insertion sort; where [<] is a strict weak order (no NaN among the
    keys) every stable sort returns the same list.  With [reverse=True]
    CPython reverses the list, sorts it and reverses it again, so that equal
    keys keep their original order.  With NaN among the keys the result of
    CPython depends on its run detection and binary insertion, which the
    model does not reproduce; the two agree at least where no element is
    less than the one before it: such a list is one ascending run and stays
    as it is. *)

Section Sort.
Context {A : Type} (lt : A -> A -> bool).

(** [rs] is the sorted prefix, last element first: [x] is placed after
    every element that is not greater than it. *)
Fixpoint insert_sorted (x : A) (rs : list A) : list A :=
  match rs with
  | [] => [x]
  | y :: rs' => if lt x y then y :: insert_sorted x rs' else x :: rs
  end.

Definition sort_asc (l : list A) : list A :=
  rev (fold_left (fun rs x => insert_sorted x rs) l []).

Definition py_sort (reverse : bool) (l : list A) : list A :=
  if reverse then rev (sort_asc (rev l)) else sort_asc l.
End Sort.

(** [sorted(apys)] *)
Definition sorted (l : list float) : list float := sort_asc PrimFloat.ltb l.

(** [max(x :: l)]: the first item that no later item exceeds with [>] *)
Definition py_max (x : float) (l : list float) : float :=
  fold_left (fun m y => if PyFloat.gt y m then y else m) l x.

(** ** The matcher *)

(** [p.get("tvlUsd") or 0] *)
Definition tvl_key (p : Pool.t) : float :=
  match Pool.tvlUsd p with
  | Some v => if PyFloat.falsy v then 0%float else v
  | None => 0%float
  end.

Definition tvl_lt (p q : Pool.t) : bool := (tvl_key p <? tvl_key q)%float.

Definition project_chain_match (proto : Proto.t) (p : Pool.t) : bool :=
  PyStr.contains (PyStr.lower (Proto.project proto))
                 (PyStr.lower (PyStr.or_empty (Pool.project p)))
  && String.eqb (PyStr.lower (PyStr.or_empty (Pool.chain p)))
                (PyStr.lower (Proto.search_chain proto)).

Definition symbol_match (sym : string) (p : Pool.t) : bool :=
  PyStr.contains sym (PyStr.upper (PyStr.or_empty (Pool.symbol p))).

Definition find_best_pool (pools : list Pool.t) (proto : Proto.t)
  : option Pool.t :=
  let candidates := List.filter (project_chain_match proto) pools in
  let sym := PyStr.upper (Proto.symbol proto) in
  let exact := List.filter (symbol_match sym) candidates in
  let candidates := match exact with [] => candidates | _ :: _ => exact end in
  let candidates := py_sort tvl_lt true candidates in
  head candidates.

(** ** The formatters *)

Definition placeholder : string := "—".

Definition fmt_tvl (v : option float) : string :=
  match v with
  | None => placeholder
  | Some x =>
      if PyFloat.falsy x then placeholder
      else if PyFloat.ge x 1e9 then
        "$" +:+ PyFloat.format_f 1 (x / 1e9) +:+ "B"
      else if PyFloat.ge x 1e6 then
        "$" +:+ PyFloat.format_f 0 (x / 1e6) +:+ "M"
      else
        "$" +:+ PyFloat.format_f 0 (x / 1e3) +:+ "K"
  end.

Definition fmt_apy (v : option float) : string :=
  match v with
  | None => placeholder
  | Some x =>
      if PyFloat.is_nan x then placeholder
      else PyFloat.format_f 1 x +:+ "%"
  end.

(** ** The page renderer *)

(** [datetime.now(timezone.utc)] *)
Record datetime := {
  year : nat; month : nat; day : nat; hour : nat; minute : nat
}.

Definition month_name (m : nat) : string :=
  nth (m - 1)
    ["January"; "February"; "March"; "April"; "May"; "June"; "July";
     "August"; "September"; "October"; "November"; "December"] "".

Definition two_digits (n : nat) : string :=
  (if (n <? 10)%nat then "0" else "") +:+ pretty n.

(** [generated_at.strftime("%-d %B %Y à %H:%M UTC")] *)
Definition strftime (t : datetime) : string :=
  pretty (day t) +:+ " " +:+ month_name (month t) +:+ " " +:+
  pretty (year t) +:+ " à " +:+ two_digits (hour t) +:+ ":" +:+
  two_digits (minute t) +:+ " UTC".

(** One card of the grid: the values interpolated into the card template,
    in the order of the template. *)
Record card := {
  card_accent : string; card_delay : nat; card_data_category : string;
  card_iconBg : string; card_icon : string; card_name : string;
  card_chain : string; card_cat_color : string; card_category : string;
  apy_display : string; sub_line : string;
  risk_cls : string; risk_label : string; tvl_display : string;
  card_description : string; card_url : string; card_strategy : string
}.

(** The document: the values interpolated into the page template. *)
Record page := {
  date_fr : string;
  stat_protocols : string;
  max_apy : string;
  median_apy : string;
  cards_html : list card
}.

Definition quote : string := String "034" "".

(** The sub-line of a card.  [None] is falsy, so the comparisons with zero
    are reached only with both values present. *)
Definition render_sub_line (apy_base apy_reward : option float) : string :=
  match apy_base, apy_reward with
  | Some b, Some r =>
      if negb (PyFloat.falsy b) && negb (PyFloat.falsy r)
         && PyFloat.gt b 0 && PyFloat.gt r 0
      then "<span class=" +:+ quote +:+ "apy-sub" +:+ quote +:+ ">Base "
           +:+ PyFloat.format_f 1 b +:+ "% + Rewards "
           +:+ PyFloat.format_f 1 r +:+ "%</span>"
      else ""
  | _, _ => ""
  end.

(** [risk_map.get(proto["risk"], ("—", ""))] *)
Definition risk_map (risk : string) : string * string :=
  if String.eqb risk "low" then ("Faible", "risk-low")
  else if String.eqb risk "medium" then ("Modéré", "risk-medium")
  else if String.eqb risk "high" then ("Élevé", "risk-high")
  else ("—", "").

(** [cat_colors.get(proto["category"], "#aaa")] *)
Definition cat_colors (category : string) : string :=
  if String.eqb category "Lending" then "#4287f5"
  else if String.eqb category "Liquidity" then "#ff007a"
  else if String.eqb category "Staking" then "#00a3ff"
  else if String.eqb category "CDP" then "#00e5ff"
  else if String.eqb category "Yield" then "#7fff6e"
  else "#aaa".

(** The body of the loop over [enumerate(results)] *)
Definition render_card (i : nat) (r : result) : card :=
  let '(proto, pool) := r in
  let apy := pool ≫= Pool.apy in
  let tvl := pool ≫= Pool.tvlUsd in
  let apy_base := pool ≫= Pool.apyBase in
  let apy_reward := pool ≫= Pool.apyReward in
  let '(label, cls) := risk_map (Proto.risk proto) in
  {| card_accent := Proto.accent proto;
     card_delay := i * 60;
     card_data_category := Proto.category proto;
     card_iconBg := Proto.iconBg proto;
     card_icon := Proto.icon proto;
     card_name := Proto.name proto;
     card_chain := Proto.chain proto;
     card_cat_color := cat_colors (Proto.category proto);
     card_category := Proto.category proto;
     apy_display := fmt_apy apy;
     sub_line := render_sub_line apy_base apy_reward;
     risk_cls := cls;
     risk_label := label;
     tvl_display := fmt_tvl tvl;
     card_description := Proto.description proto;
     card_url := Proto.url proto;
     card_strategy := Proto.strategy proto |}.

(** [cards_html += ...] over [enumerate(results)], from index [i] *)
Fixpoint render_cards (i : nat) (results : list result) : list card :=
  match results with
  | [] => []
  | r :: rest => render_card i r :: render_cards (S i) rest
  end.

(** [[r[1].get("apy") for r in results
      if r[1] and r[1].get("apy") is not None]] *)
Definition present_apys (results : list result) : list float :=
  omap (fun r : result => snd r ≫= Pool.apy) results.

Definition percent (x : float) : string := PyFloat.format_f 1 x +:+ "%".

Definition build_html (results : list result) (generated_at : datetime)
  : page :=
  let cards := render_cards 0 results in
  let apys := present_apys results in
  let apys_sorted := sorted apys in
  let max_apy :=
    match apys with
    | [] => placeholder
    | a :: rest => percent (py_max a rest)
    end in
  let median_apy :=
    match apys_sorted with
    | [] => placeholder
    | a :: _ => percent (nth (length apys_sorted / 2) apys_sorted a)
    end in
  {| date_fr := strftime generated_at;
     stat_protocols := pretty (length results);
     max_apy := max_apy;
     median_apy := median_apy;
     cards_html := cards |}.

(** ** Effects: the network, the standard output and the file system *)

Inductive exn :=
| ConnectionError
| Timeout
| HTTPError (status : nat)
| JSONDecodeError
| KeyError (key : string)
| FileExistsError (path : string)
| IsADirectoryError (path : string).

(** What the body of a response decodes to *)
Inductive body :=
| NotJSON
| WithoutData
| Data (pools : list Pool.t).

(** What [requests.get(..., timeout=30)] meets *)
Inductive transport :=
| Refused
| TimedOut
| Answered (status : nat) (b : body).

(** The lines printed, by the values they carry *)
Inductive message :=
| Fetching
| Fetched (count : nat)
| Found (name apy tvl : string) (symbol : option string)
| NotFound (name : string)
| Generated (out : string) (html : page).

Inductive node :=
| Dir
| File (content : page).

Record world := {
  stdout : list message;
  fs : gmap string node
}.

(** A computation either returns or raises; the effects done before an
    exception stay done. *)
Inductive outcome (A : Type) :=
| Return (a : A)
| Raise (e : exn).
Arguments Return {A} a.
Arguments Raise {A} e.

Definition IO (A : Type) : Type := world -> outcome A * world.

Definition ret {A} (a : A) : IO A := fun w => (Return a, w).

Definition raise {A} (e : exn) : IO A := fun w => (Raise e, w).

Definition bind {A B} (m : IO A) (k : A -> IO B) : IO B :=
  fun w =>
    match m w with
    | (Return a, w') => k a w'
    | (Raise e, w') => (Raise e, w')
    end.

#[global] Instance IO_ret : MRet IO := @ret.
#[global] Instance IO_bind : MBind IO := fun A B k m => bind m k.

Definition print (m : message) : IO unit :=
  fun w => (Return tt, {| stdout := stdout w ++ [m]; fs := fs w |}).

(** [r = requests.get(url, timeout=30)] *)
Definition requests_get (net : transport) : IO (nat * body) :=
  match net with
  | Refused => raise ConnectionError
  | TimedOut => raise Timeout
  | Answered status b => ret (status, b)
  end.

(** [r.raise_for_status()] *)
Definition raise_for_status (r : nat * body) : IO unit :=
  let status := fst r in
  if ((400 <=? status) && (status <? 600))%nat
  then raise (HTTPError status) else ret tt.

(** [r.json()["data"]] *)
Definition json_data (r : nat * body) : IO (list Pool.t) :=
  match snd r with
  | NotJSON => raise JSONDecodeError
  | WithoutData => raise (KeyError "data")
  | Data pools => ret pools
  end.

Definition fetch_pools (net : transport) : IO (list Pool.t) :=
  print Fetching ;;
  r ← requests_get net ;
  raise_for_status r ;;
  pools ← json_data r ;
  print (Fetched (length pools)) ;;
  mret pools.

(** [out.parent.mkdir(exist_ok=True)] *)
Definition mkdir_exist_ok (path : string) : IO unit :=
  fun w =>
    match fs w !! path with
    | None => (Return tt, {| stdout := stdout w; fs := <[path := Dir]> (fs w) |})
    | Some Dir => (Return tt, w)
    | Some (File _) => (Raise (FileExistsError path), w)
    end.

(** [out.write_text(html, encoding="utf-8")] *)
Definition write_text (path : string) (html : page) : IO unit :=
  fun w =>
    match fs w !! path with
    | Some Dir => (Raise (IsADirectoryError path), w)
    | _ => (Return tt,
            {| stdout := stdout w; fs := <[path := File html]> (fs w) |})
    end.

(** The status line of one protocol *)
Definition report (proto : Proto.t) (pool : option Pool.t) : message :=
  match pool with
  | Some p => Found (Proto.name proto) (fmt_apy (Pool.apy p))
                (fmt_tvl (Pool.tvlUsd p)) (Pool.symbol p)
  | None => NotFound (Proto.name proto)
  end.

(** The loop [for proto in PROTOCOLS] of [main], from the results so far *)
Fixpoint match_protocols (pools : list Pool.t) (protos : list Proto.t)
  (results : list result) : IO (list result) :=
  match protos with
  | [] => mret results
  | proto :: rest =>
      let pool := find_best_pool pools proto in
      print (report proto pool) ;;
      match_protocols pools rest (results ++ [(proto, pool)])
  end.

Definition out_dir : string := "docs".
Definition out : string := "docs/index.html".

Definition main (net : transport) (now : datetime) : IO unit :=
  pools ← fetch_pools net ;
  results ← match_protocols pools PROTOCOLS [] ;
  let html := build_html results now in
  mkdir_exist_ok out_dir ;;
  write_text out html ;;
  print (Generated out html).

(** ** The matcher on Python objects

    [find_best_pool] receives a reference to the list that [fetch_pools]
    returned; the list holds references to the pool dictionaries.  The two
    comprehensions build new list objects, [candidates = exact] rebinds a
    local name, and [candidates.sort] updates the object that the name
    refers to at that point.  The store makes this sharing explicit. *)

Module Obj.

Definition loc := positive.

Inductive object :=
| List (items : list loc)
| Dict (p : Pool.t).

Abbreviation heap := (gmap loc object).

(** A computation on the store; [None] is a reference used at the wrong
    type, which a store holding a list of dictionaries never meets. *)
Definition Py (A : Type) : Type := heap -> option (A * heap).

#[global] Instance Py_ret : MRet Py := fun A a h => Some (a, h).
#[global] Instance Py_bind : MBind Py := fun A B k m h =>
  match m h with
  | Some (a, h') => k a h'
  | None => None
  end.

Definition get_list (l : loc) : Py (list loc) := fun h =>
  match h !! l with
  | Some (List items) => Some (items, h)
  | _ => None
  end.

Definition get_dict (l : loc) : Py Pool.t := fun h =>
  match h !! l with
  | Some (Dict p) => Some (p, h)
  | _ => None
  end.

(** A list display or comprehension: a new object *)
Definition new_list (items : list loc) : Py loc := fun h =>
  let l := fresh (dom h) in Some (l, <[l := List items]> h).

(** An update in place of the list object at [l] *)
Definition set_list (l : loc) (items : list loc) : Py unit := fun h =>
  match h !! l with
  | Some (List _) => Some (tt, <[l := List items]> h)
  | _ => None
  end.

(** [[p for p in items if test(p)]], before the new list is built *)
Fixpoint select (test : Pool.t -> bool) (items : list loc)
  : Py (list loc) :=
  match items with
  | [] => mret []
  | r :: rest =>
      p ← get_dict r ;
      kept ← select test rest ;
      mret (if test p then r :: kept else kept)
  end.

(** The keys of a sort, computed once for each item *)
Fixpoint with_keys (key : Pool.t -> float) (items : list loc)
  : Py (list (float * loc)) :=
  match items with
  | [] => mret []
  | r :: rest =>
      p ← get_dict r ;
      keyed ← with_keys key rest ;
      mret ((key p, r) :: keyed)
  end.

(** [l.sort(key=key, reverse=True)] *)
Definition sort_in_place (key : Pool.t -> float) (l : loc) : Py unit :=
  items ← get_list l ;
  keyed ← with_keys key items ;
  set_list l
    (map snd (py_sort (fun a b => (fst a <? fst b)%float) true keyed)).

Definition find_best_pool (pools : loc) (proto : Proto.t)
  : Py (option loc) :=
  items ← get_list pools ;
  kept ← select (project_chain_match proto) items ;
  candidates ← new_list kept ;
  let sym := PyStr.upper (Proto.symbol proto) in
  items ← get_list candidates ;
  kept ← select (symbol_match sym) items ;
  exact ← new_list kept ;
  let candidates := match kept with [] => candidates | _ :: _ => exact end in
  sort_in_place tvl_key candidates ;;
  items ← get_list candidates ;
  mret (head items).

(** A pool together with the reference to its dictionary *)
Definition entry : Type := Pool.t * loc.

(** Each reference of [es] leads to the dictionary paired with it. *)
Definition valid (h : heap) (es : list entry) : Prop :=
  Forall (fun e => h !! snd e = Some (Dict (fst e))) es.

(** The list object at [l] holds the dictionaries [es], in this order. *)
Definition holds (h : heap) (l : loc) (es : list entry) : Prop :=
  h !! l = Some (List (map snd es)) /\ valid h es.

Definition entry_lt (a b : entry) : bool := tvl_lt (fst a) (fst b).

(** The matcher on pools that carry their reference *)
Definition best_entry (es : list entry) (proto : Proto.t) : option entry :=
  let candidates :=
    List.filter (fun e => project_chain_match proto (fst e)) es in
  let sym := PyStr.upper (Proto.symbol proto) in
  let exact := List.filter (fun e => symbol_match sym (fst e)) candidates in
  let candidates := match exact with [] => candidates | _ :: _ => exact end in
  head (py_sort entry_lt true candidates).

End Obj.

(** ** The specification's wording

    The notions that the specification uses to describe the matcher and the
    statistics, stated without reference to how the code computes them. *)

Module Spec.

(** Step 1: the project identifier contains the descriptor's, and the
    chain equals the descriptor's search chain, both up to case. *)
Definition keeps (proto : Proto.t) (p : Pool.t) : bool :=
  PyStr.ci_contains (Proto.project proto) (PyStr.or_empty (Pool.project p))
  && PyStr.ci_equal (PyStr.or_empty (Pool.chain p))
                    (Proto.search_chain proto).

(** Step 2: the token symbol contains the expected symbol, up to case. *)
Definition has_symbol (proto : Proto.t) (p : Pool.t) : bool :=
  PyStr.ci_contains (Proto.symbol proto) (PyStr.or_empty (Pool.symbol p)).

(** The candidates after narrowing: the kept pools with the symbol if
    there is one, every kept pool otherwise. *)
Definition candidate (pools : list Pool.t) (proto : Proto.t) (p : Pool.t)
  : bool :=
  keeps proto p
  && (if existsb (fun q => keeps proto q && has_symbol proto q) pools
      then has_symbol proto p else true).

(** Step 3: an absent [tvlUsd] counts as zero. *)
Definition tvl (p : Pool.t) : float := default 0%float (Pool.tvlUsd p).

Definition le (a b : float) : Prop := (a <=? b)%float = true.
Definition lt (a b : float) : Prop := (a <? b)%float = true.

(** [r] is the pool of greatest TVL among those that [cand] accepts, the
    earliest of [pools] among equals; no pool when [cand] accepts none. *)
Definition selected (pools : list Pool.t) (cand : Pool.t -> bool)
  (r : option Pool.t) : Prop :=
  match r with
  | None => forall q, q ∈ pools -> cand q = false
  | Some p =>
      exists i : nat,
        pools !! i = Some p /\ cand p = true
        /\ (forall q, q ∈ pools -> cand q = true -> le (tvl q) (tvl p))
        /\ (forall (j : nat) q, (j < i)%nat -> pools !! j = Some q ->
              cand q = true -> lt (tvl q) (tvl p))
  end.

(** The matcher as the specification describes it. *)
Definition best_pool (pools : list Pool.t) (proto : Proto.t)
  (r : option Pool.t) : Prop :=
  selected pools (candidate pools proto) r.

(** The units of the TVL formatter, greatest threshold first:
    threshold, decimal places, suffix. *)
Definition tvl_units : list (float * nat * string) :=
  [(1e9%float, 1%nat, "B"); (1e6%float, 0%nat, "M")].

Definition thousands : float * nat * string := (1e3%float, 0%nat, "K").

(** The greatest threshold that [v] reaches, thousands when it reaches
    none. *)
Definition tvl_unit (v : float) : float * nat * string :=
  default thousands
    (List.find (fun u => (fst (fst u) <=? v)%float) tvl_units).

Definition render_tvl (v : float) : string :=
  let '(threshold, digits, suffix) := tvl_unit v in
  "$" +:+ PyFloat.format_f digits (v / threshold) +:+ suffix.

(** The count statistic read as the specification words it: over the
    results with a present APY. *)
Definition count_of_present (results : list result) : string :=
  pretty (length (present_apys results)).

(** The base-plus-rewards condition: both present and above zero. *)
Definition both_positive (pool : option Pool.t) : Prop :=
  exists p b r,
    pool = Some p /\ Pool.apyBase p = Some b /\ Pool.apyReward p = Some r
    /\ lt 0 b /\ lt 0 r.

(** The ways the request fails, with the exception each one raises. *)
Inductive fetch_failure : transport -> exn -> Prop :=
| request_error : fetch_failure Refused ConnectionError
| request_timeout : fetch_failure TimedOut Timeout
| error_status status b :
    (400 <= status < 600)%nat ->
    fetch_failure (Answered status b) (HTTPError status).

End Spec.

(** The first pool that no later pool exceeds: what the head of the list
    sorted by decreasing key is. *)
Fixpoint first_max (l : list Pool.t) : option Pool.t :=
  match l with
  | [] => None
  | x :: l' =>
      match first_max l' with
      | None => Some x
      | Some b => if tvl_lt x b then Some b else Some x
      end
  end.

(** The order of binary64 values as a lexicographic order: the class and
    sign first, then the exponent, then the mantissa. *)
Definition rank (x : spec_float) : Z * Z * Z :=
  match x with
  | S754_nan => (0, 0, 0)
  | S754_zero _ => (0, 0, 0)
  | S754_infinity s => (if s then -2 else 2, 0, 0)
  | S754_finite s m e =>
      if s then (-1, - e, Z.neg m) else (1, e, Z.pos m)
  end.

Definition lex_lt (a b : Z * Z * Z) : Prop :=
  let '(a1, a2, a3) := a in
  let '(b1, b2, b3) := b in
  a1 < b1 \/ (a1 = b1 /\ (a2 < b2 \/ (a2 = b2 /\ a3 < b3))).

Definition frank (x : float) : Z * Z * Z := rank (Prim2SF x).

Definition not_nan (x : float) : Prop := PyFloat.is_nan x = false.

(** A list in decreasing order of [le] *)
Definition decreasing {A : Type} (le : A -> A -> Prop) (rs : list A) : Prop :=
  StronglySorted (fun a b => le b a) rs.

(** The world after more lines were printed *)
Definition said (w : world) (ms : list message) : world :=
  {| stdout := stdout w ++ ms; fs := fs w |}.

(** The result that the loop of [main] appends for one descriptor *)
Definition match_result (pools : list Pool.t) (proto : Proto.t) : result :=
  (proto, find_best_pool pools proto).

(** What a card shows of its descriptor, and the placeholders it shows
    when the descriptor has no pool *)
Definition card_of (r : result) (c : card) : Prop :=
  card_name c = Proto.name (fst r)
  /\ card_chain c = Proto.chain (fst r)
  /\ card_category c = Proto.category (fst r)
  /\ card_description c = Proto.description (fst r)
  /\ card_url c = Proto.url (fst r)
  /\ card_strategy c = Proto.strategy (fst r)
  /\ (snd r = None ->
      apy_display c = placeholder /\ tvl_display c = placeholder).

(** Every character, for the facts on letters that are checked by
    enumeration. *)
Definition all_ascii : list ascii := map ascii_of_nat (seq 0 256).

(** A decimal digit, a string of digits, and a numeral with exactly one
    digit after the point *)
Definition is_digit (c : ascii) : bool :=
  let n := N_of_ascii c in ((48 <=? n) && (n <=? 57))%N.

Fixpoint all_digits (s : string) : bool :=
  match s with
  | EmptyString => true
  | String c s' => is_digit c && all_digits s'
  end.

Definition one_decimal (s : string) : Prop :=
  exists whole d,
    s = whole +:+ "." +:+ String d ""
    /\ whole <> "" /\ all_digits whole = true /\ is_digit d = true.

(** ** Sample inputs *)

(** The first descriptor of the registry *)
Definition aave_v3 : Proto.t :=
  nth 0 PROTOCOLS (Proto.Build_t "" "" "" "" "" "" "" "" "" "" "" "" "").

Definition pool_of (project chain symbol : string) (apy tvl : option float)
  : Pool.t :=
  {| Pool.project := Some project; Pool.chain := Some chain;
     Pool.symbol := Some symbol; Pool.apy := apy; Pool.apyBase := None;
     Pool.apyReward := None; Pool.tvlUsd := tvl |}.

(** Three Aave pools, the second with a NaN TVL *)
Definition nan_pools : list Pool.t :=
  [pool_of "aave-v3" "Ethereum" "USDC" None (Some 1%float);
   pool_of "aave-v3" "Ethereum" "USDC" None (Some nan);
   pool_of "aave-v3" "Ethereum" "USDC" None (Some 5%float)].

(** Five pools: one without the symbol, one without TVL, two of equal TVL,
    one on another chain *)
Definition five_pools : list Pool.t :=
  [pool_of "aave-v3" "Ethereum" "DAI" None (Some 9e9%float);
   pool_of "Aave-V3" "ethereum" "usdc" None None;
   pool_of "aave-v3" "Ethereum" "USDC" None (Some 5%float);
   pool_of "aave-v3" "Ethereum" "aUSDC" None (Some 5%float);
   pool_of "aave-v3" "Solana" "USDC" None (Some 7%float)].

Definition with_apy (x : float) : result :=
  (aave_v3, Some (pool_of "aave-v3" "Ethereum" "USDC" (Some x) None)).

Definition noon : datetime :=
  {| year := 2026; month := 1; day := 5; hour := 12; minute := 0 |}.

Definition empty_world : world := {| stdout := []; fs := ∅ |}.

(** A store with two pool dictionaries and the list of both *)
Definition two_pools : list Obj.entry :=
  [(pool_of "aave-v3" "Ethereum" "USDT" (Some 4%float) (Some 3e9%float),
    1%positive);
   (pool_of "aave-v3" "Ethereum" "USDC" (Some 5.5%float) (Some 2e9%float),
    2%positive)].

Definition two_pools_heap : Obj.heap :=
  <[3%positive := Obj.List (map snd two_pools)]>
    (list_to_map
       (map (fun e : Obj.entry => (snd e, Obj.Dict (fst e))) two_pools)).

(** ** Notions for the further properties *)

(** The status lines that the loop of [main] prints, one per descriptor *)
Definition status_lines (pools : list Pool.t) : list message :=
  map (fun proto => report proto (find_best_pool pools proto)) PROTOCOLS.

(** The page that a run renders from the fetched pools *)
Definition page_of (pools : list Pool.t) (now : datetime) : page :=
  build_html (map (match_result pools) PROTOCOLS) now.

(** A status line and a card tell the same of a protocol. *)
Definition line_agrees (m : message) (c : card) : Prop :=
  match m with
  | Found name apy tvl _ =>
      card_name c = name /\ apy_display c = apy /\ tvl_display c = tvl
  | NotFound name =>
      card_name c = name /\ apy_display c = placeholder
      /\ tvl_display c = placeholder
  | _ => False
  end.

(** The status that [raise_for_status] lets pass *)
Definition accepted (status : nat) : Prop :=
  (status < 400 \/ 600 <= status)%nat.

(** Two descriptors with the same matching keys, up to case *)
Definition same_keys (a b : Proto.t) : Prop :=
  PyStr.ci_equal (Proto.project a) (Proto.project b) = true
  /\ PyStr.ci_equal (Proto.symbol a) (Proto.symbol b) = true
  /\ PyStr.ci_equal (Proto.search_chain a) (Proto.search_chain b) = true.

(** The first descriptor with its keys in another case *)
Definition aave_v3_shouted : Proto.t :=
  {| Proto.name := Proto.name aave_v3; Proto.icon := Proto.icon aave_v3;
     Proto.iconBg := Proto.iconBg aave_v3; Proto.chain := Proto.chain aave_v3;
     Proto.category := Proto.category aave_v3;
     Proto.risk := Proto.risk aave_v3;
     Proto.description := Proto.description aave_v3;
     Proto.strategy := Proto.strategy aave_v3; Proto.url := Proto.url aave_v3;
     Proto.accent := Proto.accent aave_v3;
     Proto.project := "AAVE-V3"; Proto.symbol := "usdc";
     Proto.search_chain := "ETHEREUM" |}.

(** * Properties *)

(** ** The order of floats *)

Section FloatOrder.

Lemma cmp_cont_eq m1 m2 : Pos.compare_cont Eq m1 m2 = (Z.pos m1 ?= Z.pos m2).
Proof. reflexivity. Qed.

Lemma SFltb_rank x y :
x <> S754_nan -> y <> S754_nan ->
SFltb x y = true <-> lex_lt (rank x) (rank y).
Proof.
intros Hx Hy. unfold SFltb, lex_lt.
destruct x as [sx|sx| |sx mx ex], y as [sy|sy| |sy my ey];
  try congruence; simpl;
  repeat match goal with s : bool |- _ => destruct s end; simpl;
  try (split; [discriminate | lia]);
  try (split; [intros _; lia | reflexivity]).
- destruct (Z.compare_spec ex ey); simpl.
  + rewrite cmp_cont_eq. destruct (Z.compare_spec (Z.pos mx) (Z.pos my)); simpl;
      split; try discriminate; try lia; reflexivity.
  + split; try discriminate; try lia; reflexivity.
  + split; try discriminate; try lia; reflexivity.
- destruct (Z.compare_spec ex ey); simpl.
  + rewrite cmp_cont_eq. destruct (Z.compare_spec (Z.pos mx) (Z.pos my)); simpl;
      split; try discriminate; try lia; reflexivity.
  + split; try discriminate; try lia; reflexivity.
  + split; try discriminate; try lia; reflexivity.
Qed.

Lemma SFleb_rank x y :
x <> S754_nan -> y <> S754_nan ->
SFleb x y = true <-> ~ lex_lt (rank y) (rank x).
Proof.
intros Hx Hy. unfold SFleb, lex_lt.
destruct x as [sx|sx| |sx mx ex], y as [sy|sy| |sy my ey];
  try congruence; simpl;
  repeat match goal with s : bool |- _ => destruct s end; simpl;
  try (split; [discriminate | lia]);
  try (split; [intros _; lia | reflexivity]).
- destruct (Z.compare_spec ex ey); simpl.
  + rewrite cmp_cont_eq. destruct (Z.compare_spec (Z.pos mx) (Z.pos my)); simpl;
      split; try discriminate; try lia; reflexivity.
  + split; try discriminate; try lia; reflexivity.
  + split; try discriminate; try lia; reflexivity.
- destruct (Z.compare_spec ex ey); simpl.
  + rewrite cmp_cont_eq. destruct (Z.compare_spec (Z.pos mx) (Z.pos my)); simpl;
      split; try discriminate; try lia; reflexivity.
  + split; try discriminate; try lia; reflexivity.
  + split; try discriminate; try lia; reflexivity.
Qed.

Lemma SFeqb_rank x y :
x <> S754_nan -> y <> S754_nan ->
SFeqb x y = true <-> rank x = rank y.
Proof.
intros Hx Hy. unfold SFeqb.
destruct x as [sx|sx| |sx mx ex], y as [sy|sy| |sy my ey];
  try congruence; simpl;
  repeat match goal with s : bool |- _ => destruct s end; simpl;
  try (split; [discriminate | congruence]);
  try (split; [reflexivity | reflexivity]).
- destruct (Z.compare_spec ex ey); simpl.
  + rewrite cmp_cont_eq. destruct (Z.compare_spec (Z.pos mx) (Z.pos my)); simpl;
      split; try discriminate; try congruence; intros E; injection E; lia.
  + split; try discriminate; intros E; injection E; lia.
  + split; try discriminate; intros E; injection E; lia.
- destruct (Z.compare_spec ex ey); simpl.
  + rewrite cmp_cont_eq. destruct (Z.compare_spec (Z.pos mx) (Z.pos my)); simpl;
      split; try discriminate; try congruence; intros E; injection E; lia.
  + split; try discriminate; intros E; injection E; lia.
  + split; try discriminate; intros E; injection E; lia.
Qed.

Lemma is_nan_spec x : PyFloat.is_nan x = true <-> Prim2SF x = S754_nan.
Proof.
unfold PyFloat.is_nan. rewrite FloatAxioms.eqb_spec.
destruct (Prim2SF x) as [s|s| |s m e] eqn:E.
- simpl. split; discriminate.
- destruct s; simpl; split; discriminate.
- simpl. split; reflexivity.
- assert (H : SFeqb (S754_finite s m e) (S754_finite s m e) = true)
    by (apply SFeqb_rank; congruence).
  rewrite H. split; discriminate.
Qed.

Lemma not_nan_spec x : not_nan x <-> Prim2SF x <> S754_nan.
Proof.
unfold not_nan. rewrite <- is_nan_spec.
destruct (PyFloat.is_nan x); split; congruence.
Qed.

Lemma ltb_frank x y :
not_nan x -> not_nan y ->
(x <? y)%float = true <-> lex_lt (frank x) (frank y).
Proof.
intros Hx%not_nan_spec Hy%not_nan_spec.
rewrite FloatAxioms.ltb_spec. by apply SFltb_rank.
Qed.

Lemma leb_frank x y :
not_nan x -> not_nan y ->
(x <=? y)%float = true <-> ~ lex_lt (frank y) (frank x).
Proof.
intros Hx%not_nan_spec Hy%not_nan_spec.
rewrite FloatAxioms.leb_spec. by apply SFleb_rank.
Qed.

Lemma eqb_frank x y :
not_nan x -> not_nan y ->
(x =? y)%float = true <-> frank x = frank y.
Proof.
intros Hx%not_nan_spec Hy%not_nan_spec.
rewrite FloatAxioms.eqb_spec. by apply SFeqb_rank.
Qed.

(** Every comparison with NaN is false. *)
Lemma nan_compare x y :
PyFloat.is_nan x = true \/ PyFloat.is_nan y = true ->
(x <? y)%float = false /\ (x <=? y)%float = false /\ (x =? y)%float = false.
Proof.
rewrite !is_nan_spec, FloatAxioms.ltb_spec, FloatAxioms.leb_spec, FloatAxioms.eqb_spec.
unfold SFltb, SFleb, SFeqb.
intros [-> | ->]; [| destruct (Prim2SF x)]; done.
Qed.

Lemma lt_not_nan x y : (x <? y)%float = true -> not_nan x /\ not_nan y.
Proof.
intros H. unfold not_nan.
destruct (PyFloat.is_nan x) eqn:Ex.
{ destruct (nan_compare x y) as (A & _); [by left | congruence]. }
destruct (PyFloat.is_nan y) eqn:Ey; [| done].
destruct (nan_compare x y) as (A & _); [by right | congruence].
Qed.

Lemma le_not_nan x y : (x <=? y)%float = true -> not_nan x /\ not_nan y.
Proof.
intros H. unfold not_nan.
destruct (PyFloat.is_nan x) eqn:Ex.
{ destruct (nan_compare x y) as (_ & A & _); [by left | congruence]. }
destruct (PyFloat.is_nan y) eqn:Ey; [| done].
destruct (nan_compare x y) as (_ & A & _); [by right | congruence].
Qed.

Ltac lex :=
unfold lex_lt in *;
repeat match goal with
       | p : (Z * Z * Z)%type |- _ => destruct p as [[? ?] ?]
       end;
try lia.

Lemma lex_lt_irrefl a : ~ lex_lt a a.
Proof. lex. Qed.

Lemma lex_lt_trans a b c : lex_lt a b -> lex_lt b c -> lex_lt a c.
Proof. lex. Qed.

Lemma lex_le_trans a b c : ~ lex_lt b a -> ~ lex_lt c b -> ~ lex_lt c a.
Proof. lex. Qed.

Lemma lex_le_lt_trans a b c : ~ lex_lt b a -> lex_lt b c -> lex_lt a c.
Proof. lex. Qed.

End FloatOrder.

Section SortFacts.
Context {A : Type} (lt : A -> A -> bool).

Lemma py_sort_reverse l :
  py_sort lt true l = fold_right (insert_sorted lt) [] l.
Proof.
  unfold py_sort, sort_asc.
  rewrite rev_involutive. rewrite <- (rev_involutive l) at 2.
  symmetry. apply (fold_left_rev_right (insert_sorted lt)).
Qed.

Lemma head_insert_sorted x rs :
  head (insert_sorted lt x rs)
  = match head rs with
    | None => Some x
    | Some y => if lt x y then Some y else Some x
    end.
Proof. destruct rs as [|y rs]; simpl; [done|]. by destruct (lt x y). Qed.

Lemma insert_sorted_perm x rs : Permutation (insert_sorted lt x rs) (x :: rs).
Proof.
  induction rs as [|y rs IH]; simpl; [done|].
  destruct (lt x y); [|done].
  rewrite IH. apply perm_swap.
Qed.

Lemma fold_insert_perm l acc :
  Permutation (fold_left (fun rs x => insert_sorted lt x rs) l acc)
              (rev l ++ acc).
Proof.
  revert acc. induction l as [|x l IH]; intros acc; simpl; [done|].
  rewrite IH, insert_sorted_perm, <- app_assoc. done.
Qed.

Lemma sort_asc_perm l : Permutation (sort_asc lt l) l.
Proof.
  unfold sort_asc. rewrite <- Permutation_rev, fold_insert_perm, app_nil_r.
  symmetry. apply Permutation_rev.
Qed.

(** Where [lt] is the strict part of a total preorder [le], insertion
    keeps a list decreasing. *)
Context (le : A -> A -> Prop) (ok : A -> Prop).
Hypothesis lt_le : forall a b, lt a b = true -> le a b.
Hypothesis not_lt_le : forall a b, ok a -> ok b -> lt a b = false -> le b a.
Hypothesis le_trans : forall a b c, le a b -> le b c -> le a c.

Local Abbreviation decreasing := (decreasing le).

Lemma insert_sorted_decreasing x rs :
  ok x -> Forall ok rs -> decreasing rs -> decreasing (insert_sorted lt x rs).
Proof.
  intros Hx Hok Hs. induction Hs as [|y rs Hs IH Hy]; simpl.
  - repeat constructor.
  - apply Forall_cons in Hok as [Hoky Hok].
    destruct (lt x y) eqn:E.
    + constructor; [by apply IH|].
      rewrite (insert_sorted_perm x rs). constructor; [by apply lt_le | done].
    + constructor; [by constructor|].
      constructor; [by apply not_lt_le|].
      eapply Forall_impl; [exact Hy|].
      intros z Hz. eapply le_trans; [exact Hz|]. by apply not_lt_le.
Qed.

Lemma fold_insert_decreasing l acc :
  Forall ok l -> Forall ok acc -> decreasing acc ->
  decreasing (fold_left (fun rs x => insert_sorted lt x rs) l acc).
Proof.
  revert acc. induction l as [|x l IH]; intros acc Hl Hacc Hs; simpl; [done|].
  apply Forall_cons in Hl as [Hx Hl].
  apply IH; [done | | by apply insert_sorted_decreasing].
  rewrite (insert_sorted_perm x acc). by constructor.
Qed.

Lemma decreasing_rev rs :
  decreasing rs -> StronglySorted le (rev rs).
Proof.
  induction 1 as [|y rs Hs IH Hy]; simpl; [constructor|].
  clear Hs. revert IH. generalize (rev rs) (Permutation_rev rs).
  intros l Hperm. rewrite Hperm in Hy. clear Hperm rs.
  induction l as [|z l IHl]; intros Hs; simpl.
  - repeat constructor.
  - apply Forall_cons in Hy as [Hz Hy]. inversion Hs; subst.
    constructor; [by apply IHl|].
    apply Forall_app; split; [done | by repeat constructor].
Qed.

Lemma sort_asc_sorted l :
  Forall ok l -> StronglySorted le (sort_asc lt l).
Proof.
  intros Hl. apply decreasing_rev, fold_insert_decreasing; try done.
  constructor.
Qed.
End SortFacts.

Module StrFacts.
Import PyStr.

Lemma all_ascii_complete c : In c all_ascii.
Proof.
  unfold all_ascii. rewrite <- (ascii_nat_embedding c).
  apply in_map, in_seq. pose proof (nat_ascii_bounded c). lia.
Qed.

Lemma forall_ascii (P : ascii -> bool) :
  forallb P all_ascii = true -> forall c, P c = true.
Proof.
  intros H c. rewrite forallb_forall in H. apply H, all_ascii_complete.
Qed.

Lemma forall_ascii2 (P : ascii -> ascii -> bool) :
  forallb (fun a => forallb (P a) all_ascii) all_ascii = true ->
  forall a b, P a b = true.
Proof.
  intros H a b. apply forall_ascii. by apply (forall_ascii _ H a).
Qed.

Lemma lower_char_same a b :
  Ascii.eqb (lower_char a) (lower_char b) = same_letter a b.
Proof.
  apply Bool.eqb_prop. revert a b.
  apply (forall_ascii2 (fun a b =>
    Bool.eqb (Ascii.eqb (lower_char a) (lower_char b)) (same_letter a b))).
  vm_compute. reflexivity.
Qed.

Lemma upper_char_same a b :
  Ascii.eqb (upper_char a) (upper_char b) = same_letter a b.
Proof.
  apply Bool.eqb_prop. revert a b.
  apply (forall_ascii2 (fun a b =>
    Bool.eqb (Ascii.eqb (upper_char a) (upper_char b)) (same_letter a b))).
  vm_compute. reflexivity.
Qed.

Lemma prefix_cons a s b t :
  String.prefix (String a s) (String b t) = Ascii.eqb a b && String.prefix s t.
Proof.
  simpl. destruct (ascii_dec a b) as [->|Hne].
  - by rewrite Ascii.eqb_refl.
  - apply Ascii.eqb_neq in Hne. by rewrite Hne.
Qed.

Section Fold.
Context (f : ascii -> ascii).
Hypothesis f_same : forall a b, Ascii.eqb (f a) (f b) = same_letter a b.

Lemma prefix_fold s t :
  String.prefix (map_chars f s) (map_chars f t) = ci_prefix s t.
Proof.
  revert t. induction s as [|a s IH]; intros [|b t]; try reflexivity.
  change (String.prefix (String (f a) (map_chars f s))
                        (String (f b) (map_chars f t))
          = same_letter a b && ci_prefix s t).
  by rewrite prefix_cons, f_same, IH.
Qed.

Lemma contains_fold s t :
  contains (map_chars f s) (map_chars f t) = ci_contains s t.
Proof.
  induction t as [|b t IH].
  - simpl. f_equal. apply (prefix_fold s EmptyString).
  - change (String.prefix (map_chars f s) (map_chars f (String b t))
            || contains (map_chars f s) (map_chars f t)
            = ci_prefix s (String b t) || ci_contains s t).
    by rewrite prefix_fold, IH.
Qed.

Lemma eqb_fold s t :
  String.eqb (map_chars f s) (map_chars f t) = ci_equal s t.
Proof.
  revert t. induction s as [|a s IH]; intros [|b t]; try reflexivity.
  simpl. rewrite f_same, <- IH. by destruct (same_letter a b).
Qed.
End Fold.

Lemma contains_lower s t : contains (lower s) (lower t) = ci_contains s t.
Proof. apply contains_fold, lower_char_same. Qed.

Lemma contains_upper s t : contains (upper s) (upper t) = ci_contains s t.
Proof. apply contains_fold, upper_char_same. Qed.

Lemma eqb_lower s t : String.eqb (lower s) (lower t) = ci_equal s t.
Proof. apply eqb_fold, lower_char_same. Qed.
End StrFacts.

Section OrderFacts.
Import Spec.

Lemma le_refl a : not_nan a -> le a a.
Proof. intros H. apply leb_frank; [done..|]. apply lex_lt_irrefl. Qed.

Lemma lt_le a b : lt a b -> le a b.
Proof.
  intros H. destruct (lt_not_nan _ _ H) as [Ha Hb].
  apply ltb_frank in H; [|done..]. apply leb_frank; [done..|].
  intros H'. eapply lex_lt_irrefl, lex_lt_trans; eassumption.
Qed.

Lemma not_lt_le a b :
  not_nan a -> not_nan b -> (a <? b)%float = false -> le b a.
Proof.
  intros Ha Hb H. apply leb_frank; [done..|].
  intros H'. apply ltb_frank in H'; [|done..]. congruence.
Qed.

Lemma le_trans a b c : le a b -> le b c -> le a c.
Proof.
  intros H1 H2. destruct (le_not_nan _ _ H1) as [Ha Hb].
  destruct (le_not_nan _ _ H2) as [_ Hc].
  apply leb_frank in H1, H2; [|done..]. apply leb_frank; [done..|].
  eapply lex_le_trans; eassumption.
Qed.

Lemma lt_not_le a b : lt a b -> le b a -> False.
Proof.
  intros H1 H2. destruct (lt_not_nan _ _ H1) as [Ha Hb].
  apply ltb_frank in H1; [|done..]. apply leb_frank in H2; [|done..]. done.
Qed.

Lemma le_lt_trans a b c : le a b -> lt b c -> lt a c.
Proof.
  intros H1 H2. destruct (le_not_nan _ _ H1) as [Ha Hb].
  destruct (lt_not_nan _ _ H2) as [_ Hc].
  apply leb_frank in H1; [|done..]. apply ltb_frank in H2; [|done..].
  apply ltb_frank; [done..|]. eapply lex_le_lt_trans; eassumption.
Qed.

(** A falsy float is one of the two zeros. *)
Lemma falsy_zero v :
  PyFloat.falsy v = true -> exists s, Prim2SF v = S754_zero s.
Proof.
  unfold PyFloat.falsy. rewrite FloatAxioms.eqb_spec.
  change (Prim2SF 0) with (S754_zero false).
  destruct (Prim2SF v) as [s|s| |s m e];
    try (by destruct s); try discriminate; eauto.
Qed.

Lemma SFcompare_zero_l s x :
  SFcompare (S754_zero s) x = SFcompare (S754_zero false) x.
Proof. by destruct x. Qed.

Lemma SFcompare_zero_r s x :
  SFcompare x (S754_zero s) = SFcompare x (S754_zero false).
Proof. by destruct x. Qed.

Lemma Prim2SF_tvl_key p :
  Prim2SF (tvl_key p) = Prim2SF (tvl p)
  \/ exists s, Prim2SF (tvl p) = S754_zero s
               /\ Prim2SF (tvl_key p) = S754_zero false.
Proof.
  unfold tvl_key, tvl. destruct (Pool.tvlUsd p) as [v|]; simpl; [|by left].
  destruct (PyFloat.falsy v) eqn:E; [|by left].
  right. destruct (falsy_zero v E) as [s Hs]. eauto.
Qed.

(** Sorting by [tvlUsd or 0] is sorting by the TVL with absent read as
    zero. *)
Lemma tvl_lt_spec p q : tvl_lt p q = (tvl p <? tvl q)%float.
Proof.
  unfold tvl_lt. rewrite !FloatAxioms.ltb_spec. unfold SFltb.
  destruct (Prim2SF_tvl_key p) as [-> | (s & -> & ->)],
           (Prim2SF_tvl_key q) as [-> | (s' & -> & ->)];
    by rewrite ?SFcompare_zero_l, ?SFcompare_zero_r.
Qed.
End OrderFacts.

Section Matcher.
Import Spec.

Lemma project_chain_match_keeps proto p :
  project_chain_match proto p = keeps proto p.
Proof.
  unfold project_chain_match, keeps.
  by rewrite StrFacts.contains_lower, StrFacts.eqb_lower.
Qed.

Lemma symbol_match_has_symbol proto p :
  symbol_match (PyStr.upper (Proto.symbol proto)) p = has_symbol proto p.
Proof. unfold symbol_match, has_symbol. apply StrFacts.contains_upper. Qed.

Lemma filter_ext_bool {A} (f g : A -> bool) l :
  (forall x, f x = g x) -> List.filter f l = List.filter g l.
Proof. intros H. induction l as [|x l IH]; simpl; [done|]. by rewrite H, IH. Qed.

Lemma filter_filter_bool {A} (f g : A -> bool) l :
  List.filter g (List.filter f l) = List.filter (fun x => f x && g x) l.
Proof.
  induction l as [|x l IH]; simpl; [done|].
  destruct (f x); simpl; [|done]. destruct (g x); by rewrite IH.
Qed.

Lemma filter_nil_existsb {A} (f : A -> bool) l :
  List.filter f l = [] <-> existsb f l = false.
Proof.
  induction l as [|x l IH]; simpl; [done|].
  destruct (f x); simpl; [split; discriminate | done].
Qed.

Lemma narrowed_candidates pools proto :
  let kept := List.filter (project_chain_match proto) pools in
  match List.filter (symbol_match (PyStr.upper (Proto.symbol proto))) kept with
  | [] => kept
  | _ :: _ => List.filter (symbol_match (PyStr.upper (Proto.symbol proto))) kept
  end
  = List.filter (candidate pools proto) pools.
Proof.
  simpl. rewrite filter_filter_bool.
  rewrite (filter_ext_bool _ (fun q => keeps proto q && has_symbol proto q))
    by (intros; by rewrite project_chain_match_keeps, symbol_match_has_symbol).
  unfold candidate.
  destruct (existsb (fun q => keeps proto q && has_symbol proto q) pools) eqn:E.
  - destruct (List.filter _ pools) eqn:F; [|done].
    apply filter_nil_existsb in F. congruence.
  - apply filter_nil_existsb in E. rewrite E.
    apply filter_ext_bool. intros x.
    by rewrite project_chain_match_keeps, andb_true_r.
Qed.

Lemma head_sorted_first_max l : head (py_sort tvl_lt true l) = first_max l.
Proof.
  rewrite py_sort_reverse.
  induction l as [|x l IH]; simpl; [done|].
  by rewrite head_insert_sorted, IH.
Qed.

Lemma find_best_pool_first_max pools proto :
  find_best_pool pools proto
  = first_max (List.filter (candidate pools proto) pools).
Proof.
  unfold find_best_pool. rewrite head_sorted_first_max.
  f_equal. apply narrowed_candidates.
Qed.

Lemma first_max_selected pools cand :
  (forall q, q ∈ pools -> cand q = true -> not_nan (tvl q)) ->
  selected pools cand (first_max (List.filter cand pools)).
Proof.
  induction pools as [|x l IH]; intros Hnan.
  { simpl. intros q Hq. by apply elem_of_nil in Hq. }
  assert (IH' : selected l cand (first_max (List.filter cand l))).
  { apply IH. intros q Hq. apply Hnan. by right. }
  clear IH. simpl. destruct (cand x) eqn:Ex.
  - assert (Hx : not_nan (tvl x)) by (apply Hnan; [left | done]).
    simpl. destruct (first_max (List.filter cand l)) as [b|]; simpl in IH'.
    + destruct IH' as (i & Hi & Hb & Hmax & Hfirst).
      assert (Hbn : not_nan (tvl b)).
      { apply Hnan; [right; by eapply list_elem_of_lookup_2 | done]. }
      rewrite tvl_lt_spec. destruct (tvl x <? tvl b)%float eqn:E.
      * exists (S i). repeat split; try done.
        -- intros q [-> | Hq]%elem_of_cons Hc; [by apply lt_le | by apply Hmax].
        -- intros [|j] q Hj Hq Hc; simpl in Hq.
           ++ by injection Hq as <-.
           ++ eapply Hfirst; [| done..]. lia.
      * exists 0%nat. repeat split; try done.
        -- intros q [-> | Hq]%elem_of_cons Hc; [by apply le_refl |].
           eapply le_trans; [by apply Hmax | by apply not_lt_le].
        -- intros j q Hj. lia.
    + exists 0%nat. repeat split; try done.
      * intros q [-> | Hq]%elem_of_cons Hc; [by apply le_refl |].
        rewrite IH' in Hc; done.
      * intros j q Hj. lia.
  - destruct (first_max (List.filter cand l)) as [b|]; simpl in *.
    + destruct IH' as (i & Hi & Hb & Hmax & Hfirst).
      exists (S i). repeat split; try done.
      * intros q [-> | Hq]%elem_of_cons Hc; [congruence | by apply Hmax].
      * intros [|j] q Hj Hq Hc; simpl in Hq.
        -- injection Hq as <-. congruence.
        -- eapply Hfirst; [| done..]. lia.
    + intros q [-> | Hq]%elem_of_cons; [done | by apply IH'].
Qed.

Lemma selected_unique pools cand r1 r2 :
  selected pools cand r1 -> selected pools cand r2 -> r1 = r2.
Proof.
  destruct r1 as [p1|], r2 as [p2|]; simpl; try done.
  - intros (i1 & Hi1 & Hc1 & Hmax1 & Hfirst1) (i2 & Hi2 & Hc2 & Hmax2 & Hfirst2).
    destruct (Nat.lt_trichotomy i1 i2) as [H | [-> | H]].
    + exfalso. eapply lt_not_le; [by eapply Hfirst2 |].
      apply Hmax1; [by eapply list_elem_of_lookup_2 | done].
    + congruence.
    + exfalso. eapply lt_not_le; [by eapply Hfirst1 |].
      apply Hmax2; [by eapply list_elem_of_lookup_2 | done].
  - intros (i & Hi & Hc & _) H.
    rewrite H in Hc; [done | by eapply list_elem_of_lookup_2].
  - intros H (i & Hi & Hc & _).
    rewrite H in Hc; [done | by eapply list_elem_of_lookup_2].
Qed.
End Matcher.

(** ** Sorting under a map *)

Section SortMap.
Context {A B : Type} (f : B -> A) (ltA : A -> A -> bool) (ltB : B -> B -> bool).
Hypothesis lt_map : forall x y, ltB x y = ltA (f x) (f y).

Lemma insert_sorted_map x rs :
  insert_sorted ltA (f x) (map f rs) = map f (insert_sorted ltB x rs).
Proof.
  induction rs as [|y rs IH]; simpl; [done|].
  rewrite <- lt_map. destruct (ltB x y); simpl; [by rewrite IH | done].
Qed.

Lemma py_sort_map l :
  py_sort ltA true (map f l) = map f (py_sort ltB true l).
Proof.
  rewrite !py_sort_reverse.
  induction l as [|x l IH]; simpl; [done|].
  by rewrite IH, insert_sorted_map.
Qed.

Lemma filter_map_bool (test : A -> bool) l :
  List.filter test (map f l) = map f (List.filter (fun x => test (f x)) l).
Proof.
  induction l as [|x l IH]; simpl; [done|].
  destruct (test (f x)); simpl; by rewrite IH.
Qed.
End SortMap.

Lemma py_sort_perm {A} (lt : A -> A -> bool) l :
  Permutation (py_sort lt true l) l.
Proof.
  unfold py_sort. rewrite <- Permutation_rev, sort_asc_perm.
  symmetry. apply Permutation_rev.
Qed.

Lemma head_map {A B} (f : A -> B) l : head (map f l) = f <$> head l.
Proof. by destruct l. Qed.

(** ** Formatting *)

Section Format.
Import PyFloat.

Lemma string_of_uint_digits d : all_digits (NilEmpty.string_of_uint d) = true.
Proof. induction d; simpl; done. Qed.

Lemma dec_digits n : all_digits (dec n) = true.
Proof.
  unfold dec, NilZero.string_of_uint.
  destruct (N.to_uint (Z.to_N n)); try apply (string_of_uint_digits (_ _)); done.
Qed.

Lemma dec_not_empty n : dec n <> "".
Proof.
  unfold dec, NilZero.string_of_uint.
  destruct (N.to_uint (Z.to_N n)); simpl; done.
Qed.

Lemma dec_digit k :
  0 <= k < 10 -> exists d, dec k = String d "" /\ is_digit d = true.
Proof.
  intros H.
  assert (E : k = 0 \/ k = 1 \/ k = 2 \/ k = 3 \/ k = 4 \/ k = 5 \/ k = 6
              \/ k = 7 \/ k = 8 \/ k = 9) by lia.
  repeat (destruct E as [-> | E]; [eexists; split; reflexivity |]).
  subst. eexists; split; reflexivity.
Qed.

Lemma fixed_one_decimal n : one_decimal (fixed 1 n).
Proof.
  unfold fixed. change (10 ^ Z.of_nat 1) with 10.
  destruct (dec_digit (n mod 10)) as (d & -> & Hd).
  { apply Z.mod_pos_bound. lia. }
  exists (dec (n / 10)), d. simpl.
  repeat split; [apply dec_not_empty | apply dec_digits | done].
Qed.

(** The rounding of [format] is to the nearest integer, and to the even
    one of two nearest. *)
Lemma round_half_even_nearest n d :
  0 < d -> 2 * Z.abs (n - d * round_half_even n d) <= d.
Proof.
  intros Hd. unfold round_half_even.
  pose proof (Z.div_mod n d ltac:(lia)) as E.
  pose proof (Z.mod_pos_bound n d Hd) as B.
  destruct (Z.compare_spec (2 * (n mod d)) d); [destruct (Z.even (n / d)) | |]; lia.
Qed.

Lemma round_half_even_tie n d :
  0 < d -> 2 * (n mod d) = d -> Z.even (round_half_even n d) = true.
Proof.
  intros Hd E. unfold round_half_even. rewrite E, Z.compare_refl.
  destruct (Z.even (n / d)) eqn:Ev; [done|].
  rewrite Z.even_add, Ev. done.
Qed.

(** Below one unit of the last binary place the numeral is the nearest
    one: [scaled] is within a half of [m * 10^digits / 2^(-e)]. *)
Lemma scaled_nearest digits m e :
  e < 0 ->
  2 * Z.abs (Z.pos m * 10 ^ Z.of_nat digits
             - 2 ^ (- e) * scaled digits m e) <= 2 ^ (- e).
Proof.
  intros He. unfold scaled.
  destruct (0 <=? e) eqn:E; [apply Z.leb_le in E; lia|].
  apply round_half_even_nearest. apply Z.pow_pos_nonneg; lia.
Qed.

Lemma scaled_exact digits m e :
  0 <= e -> scaled digits m e = Z.pos m * 10 ^ Z.of_nat digits * 2 ^ e.
Proof. intros He. unfold scaled. apply Z.leb_le in He. by rewrite He. Qed.

(** A finite value is rendered with its sign and one digit after the
    point. *)
Lemma format_f_one_decimal x :
  (exists s m e, Prim2SF x = S754_finite s m e) \/ (exists s, Prim2SF x = S754_zero s) ->
  exists s num, format_f 1 x = sign s +:+ num /\ one_decimal num.
Proof.
  unfold format_f.
  intros [(s & m & e & ->) | (s & ->)]; eexists s, _; split; try done;
    apply fixed_one_decimal.
Qed.

Lemma append_assoc s t u : (s +:+ t) +:+ u = s +:+ t +:+ u.
Proof.
  induction s as [|c s IH]; [done|].
  change (String c ((s +:+ t) +:+ u) = String c (s +:+ t +:+ u)).
  by rewrite IH.
Qed.

Lemma append_percent_not_placeholder s : s +:+ "%" <> placeholder.
Proof.
  destruct s as [|a [|b [|c s]]]; try discriminate.
  simpl. intros H. injection H as _ _ _ H. by destruct s.
Qed.

End Format.

Section Formatters.
Import PyFloat Spec.

Lemma falsy_iff_zero v :
  falsy v = true <-> exists s, Prim2SF v = S754_zero s.
Proof.
  split; [apply falsy_zero|]. intros [s Hs].
  unfold falsy. rewrite FloatAxioms.eqb_spec, Hs. done.
Qed.

Lemma lt_not_eqb a b : lt a b -> (a =? b)%float = false /\ (b =? a)%float = false.
Proof.
  intros H. destruct (lt_not_nan _ _ H) as [Ha Hb].
  apply ltb_frank in H; [|done..].
  split; apply not_true_is_false; intros E; apply eqb_frank in E; try done.
  - rewrite E in H. by apply lex_lt_irrefl in H.
  - rewrite E in H. by apply lex_lt_irrefl in H.
Qed.

Lemma render_tvl_billions v :
  le 1e9 v -> render_tvl v = "$" +:+ format_f 1 (v / 1e9) +:+ "B".
Proof. unfold render_tvl, tvl_unit, le. simpl. by intros ->. Qed.

Lemma render_tvl_millions v :
  ~ le 1e9 v -> le 1e6 v ->
  render_tvl v = "$" +:+ format_f 0 (v / 1e6) +:+ "M".
Proof.
  unfold render_tvl, tvl_unit, le. simpl. intros H1 ->.
  by destruct (1e9 <=? v)%float.
Qed.

Lemma render_tvl_thousands v :
  ~ le 1e9 v -> ~ le 1e6 v ->
  render_tvl v = "$" +:+ format_f 0 (v / 1e3) +:+ "K".
Proof.
  unfold render_tvl, tvl_unit, le. simpl. intros H1 H2.
  destruct (1e9 <=? v)%float; [done|]. by destruct (1e6 <=? v)%float.
Qed.

Lemma fmt_tvl_render v : falsy v = false -> fmt_tvl (Some v) = render_tvl v.
Proof.
  intros H. unfold fmt_tvl, ge. rewrite H.
  destruct (1e9 <=? v)%float eqn:E9.
  { by rewrite render_tvl_billions. }
  destruct (1e6 <=? v)%float eqn:E6.
  { rewrite render_tvl_millions; unfold le; [done | congruence | done]. }
  rewrite render_tvl_thousands; unfold le; [done | congruence..].
Qed.
End Formatters.

(** ** The sub-line *)

Section SubLine.
Import Spec.

Lemma render_sub_line_shown b r :
  render_sub_line b r <> ""
  <-> exists x y, b = Some x /\ r = Some y /\ lt 0 x /\ lt 0 y.
Proof.
  destruct b as [x|], r as [y|]; simpl;
    try (split; [done | by intros (? & ? & ? & ? & _)]).
  unfold PyFloat.gt, PyFloat.falsy.
  destruct (0 <? x)%float eqn:Ex, (0 <? y)%float eqn:Ey;
    rewrite ?andb_false_r; simpl;
    try (split; [done | intros (? & ? & [= <-] & [= <-] & Hx & Hy);
                        unfold lt in *; congruence]).
  destruct (lt_not_eqb _ _ Ex) as [_ ->], (lt_not_eqb _ _ Ey) as [_ ->]. simpl.
  split; [intros _; by exists x, y | discriminate].
Qed.
End SubLine.

(** ** The statistics *)

Section Stats.
Import Spec.

Lemma py_max_spec x l :
  Forall not_nan (x :: l) ->
  py_max x l ∈ x :: l /\ forall a, a ∈ x :: l -> le a (py_max x l).
Proof.
  revert x. induction l as [|y l IH]; intros x Hn.
  - apply Forall_cons in Hn as [Hx _]. simpl. split; [left|].
    intros a ->%list_elem_of_singleton. by apply le_refl.
  - apply Forall_cons in Hn as [Hx Hn]. pose proof Hn as Hn'.
    apply Forall_cons in Hn' as [Hy Hl].
    change (py_max x (y :: l))
      with (py_max (if PyFloat.gt y x then y else x) l).
    unfold PyFloat.gt. destruct (x <? y)%float eqn:E.
    + destruct (IH y Hn) as [Hin Hmax]. split; [by right|].
      intros a [-> | Ha]%elem_of_cons; [| by apply Hmax].
      eapply le_trans; [apply lt_le, E | apply Hmax; left].
    + destruct (IH x) as [Hin Hmax]; [by constructor|]. split.
      * apply elem_of_cons in Hin as [-> | Hin]; [left | right; by right].
      * intros a [-> | [-> | Ha]%elem_of_cons]%elem_of_cons.
        -- apply Hmax. left.
        -- eapply le_trans; [apply (not_lt_le x y); done | apply Hmax; left].
        -- apply Hmax. by right.
Qed.

Lemma sorted_perm l : Permutation (sorted l) l.
Proof. apply sort_asc_perm. Qed.

Lemma sorted_ascending l : Forall not_nan l -> StronglySorted le (sorted l).
Proof.
  apply (sort_asc_sorted PrimFloat.ltb le not_nan).
  - intros a b. apply lt_le.
  - intros a b. apply not_lt_le.
  - apply le_trans.
Qed.

Lemma median_lookup (s : list float) a :
  s <> [] -> s !! (length s / 2)%nat = Some (nth (length s / 2) s a).
Proof.
  intros Hs. rewrite nth_lookup.
  destruct (lookup_lt_is_Some_2 s (length s / 2)%nat) as [m ->]; [| done].
  destruct s; [done|]. simpl length. apply Nat.div_lt; lia.
Qed.

Lemma build_html_stats results now :
  let apys := present_apys results in
  let P := build_html results now in
  stat_protocols P = pretty (length results)
  /\ max_apy P = match apys with
                 | [] => placeholder
                 | a :: rest => percent (py_max a rest)
                 end
  /\ median_apy P = match sorted apys !! (length apys / 2)%nat with
                    | None => placeholder
                    | Some m => percent m
                    end.
Proof.
  intros apys P. subst P. unfold build_html.
  cbn [stat_protocols max_apy median_apy]. fold apys.
  split; [done|]. split; [done|].
  pose proof (Permutation_length (sorted_perm apys)) as HL.
  destruct (sorted apys) as [|a s] eqn:E.
  - destruct apys; [done | simpl in HL; lia].
  - rewrite <- HL. by rewrite (median_lookup (a :: s) a).
Qed.
End Stats.

(** ** The loop of [main] and the cards *)

Section Pipeline.

Lemma said_nil w : said w [] = w.
Proof. destruct w. unfold said. simpl. by rewrite app_nil_r. Qed.

Lemma match_protocols_run pools protos acc w :
  match_protocols pools protos acc w
  = (Return (acc ++ map (match_result pools) protos)%list,
     said w (map (fun proto => report proto (find_best_pool pools proto)) protos)).
Proof.
  revert acc w. induction protos as [|proto rest IH]; intros acc w; simpl.
  - by rewrite app_nil_r, said_nil.
  - unfold mbind, IO_bind, bind, print. simpl. rewrite IH.
    unfold said. simpl. by rewrite <- !app_assoc.
Qed.

Lemma find_best_pool_candidate pools proto p :
  find_best_pool pools proto = Some p ->
  p ∈ pools /\ Spec.candidate pools proto p = true.
Proof.
  rewrite find_best_pool_first_max.
  assert (H : forall l, first_max l = Some p -> In p l).
  { induction l as [|x l IH]; simpl; [done|].
    destruct (first_max l) as [b|].
    - destruct (tvl_lt x b); intros [= <-]; auto.
    - intros [= <-]. auto. }
  intros Hp%H. apply filter_In in Hp as [Hin Hc].
  split; [by apply list_elem_of_In | done].
Qed.

Lemma render_cards_Forall2 i results :
  Forall2 card_of results (render_cards i results).
Proof.
  revert i. induction results as [|[proto pool] rest IH]; intros i; simpl.
  - constructor.
  - constructor; [| apply IH].
    unfold card_of, render_card. simpl.
    destruct (risk_map (Proto.risk proto)) as [label cls]. simpl.
    repeat (split; [done|]). by intros ->.
Qed.

Lemma match_results_fst pools protos :
  map fst (map (match_result pools) protos) = protos.
Proof. induction protos as [|proto rest IH]; simpl; [done|]. by rewrite IH. Qed.

End Pipeline.

(** ** The run *)

Section Main.

Lemma fetch_pools_unfold net w :
  fetch_pools net w
  = match net with
    | Refused => (Raise ConnectionError, said w [Fetching])
    | TimedOut => (Raise Timeout, said w [Fetching])
    | Answered status b =>
        if ((400 <=? status) && (status <? 600))%nat
        then (Raise (HTTPError status), said w [Fetching])
        else match b with
             | NotJSON => (Raise JSONDecodeError, said w [Fetching])
             | WithoutData => (Raise (KeyError "data"), said w [Fetching])
             | Data pools =>
                 (Return pools,
                  said w [Fetching; Fetched (length pools)])
             end
    end.
Proof.
  destruct net as [| | status b]; try reflexivity.
  cbv [fetch_pools mbind IO_bind bind print requests_get raise_for_status
       json_data mret IO_ret ret raise fst snd].
  destruct ((400 <=? status)%nat && (status <? 600)%nat); [done|].
  destruct b; try reflexivity.
  unfold said. cbn [stdout fs]. by rewrite <- app_assoc.
Qed.

Lemma fetch_pools_raises net e w w1 :
  fetch_pools net w = (Raise e, w1) -> w1 = said w [Fetching].
Proof.
  rewrite fetch_pools_unfold.
  destruct net as [| | status b]; try (by intros [= _ <-]).
  destruct ((400 <=? status)%nat && (status <? 600)%nat);
    [by intros [= _ <-]|].
  destruct b; by intros [= _ <-].
Qed.

Lemma main_fetch_raises net now e w w1 :
  fetch_pools net w = (Raise e, w1) -> main net now w = (Raise e, w1).
Proof. intros H. unfold main, mbind, IO_bind, bind. by rewrite H. Qed.

Lemma fetch_failure_raises net e w :
  Spec.fetch_failure net e ->
  fetch_pools net w = (Raise e, said w [Fetching]).
Proof.
  rewrite fetch_pools_unfold.
  destruct 1 as [| | status b Hs]; try done.
  assert (((400 <=? status)%nat && (status <? 600)%nat) = true) as ->; [| done].
  apply andb_true_iff. split; [apply Nat.leb_le | apply Nat.ltb_lt]; lia.
Qed.

Lemma fetch_pools_returns status pools w :
  (status < 400 \/ 600 <= status)%nat ->
  fetch_pools (Answered status (Data pools)) w
  = (Return pools, said w [Fetching; Fetched (length pools)]).
Proof.
  intros Hs. rewrite fetch_pools_unfold.
  assert (((400 <=? status)%nat && (status <? 600)%nat) = false) as ->; [| done].
  apply andb_false_iff. rewrite Nat.leb_gt, Nat.ltb_ge. lia.
Qed.
End Main.

Section MainRun.

Lemma fs_said w ms : fs (said w ms) = fs w.
Proof. reflexivity. Qed.

(** What [main] does once the pools are fetched. *)
Lemma main_after_fetch status pools now w w' :
  main (Answered status (Data pools)) now w = (Return tt, w') ->
  fs w' !! out
  = Some (File (build_html (map (match_result pools) PROTOCOLS) now))
  /\ fs w' !! out_dir = Some Dir.
Proof.
  unfold main, mbind, IO_bind, bind. rewrite fetch_pools_unfold.
  destruct ((400 <=? status)%nat && (status <? 600)%nat); [done|].
  rewrite match_protocols_run. rewrite app_nil_l.
  unfold mkdir_exist_ok, write_text, print.
  set (w1 := said _ _). set (html := build_html _ _).
  destruct (fs w1 !! out_dir) as [[|c]|] eqn:Ed; [| done |].
  - destruct (fs w1 !! out) as [[|c]|] eqn:Eo; [done | |];
      intros [= <-]; cbn [fs]; rewrite lookup_insert_eq, lookup_insert_ne; done.
  - cbn [fs stdout].
    rewrite (lookup_insert_ne (fs w1) out_dir out) by done.
    destruct (fs w1 !! out) as [[|c]|] eqn:Eo; [done | |];
      intros [= <-]; cbn [fs];
      rewrite lookup_insert_eq, lookup_insert_ne, lookup_insert_eq; done.
Qed.

Lemma main_returns status pools now w :
  (status < 400 \/ 600 <= status)%nat ->
  (forall c, fs w !! out_dir <> Some (File c)) ->
  fs w !! out <> Some Dir ->
  exists w', main (Answered status (Data pools)) now w = (Return tt, w').
Proof.
  intros Hs Hd Ho.
  unfold main, mbind, IO_bind, bind. rewrite fetch_pools_returns by done.
  rewrite match_protocols_run, app_nil_l.
  unfold mkdir_exist_ok, write_text, print. rewrite !fs_said.
  destruct (fs w !! out_dir) as [[|c]|] eqn:Ed.
  - rewrite ?fs_said.
    destruct (fs w !! out) as [[|c]|] eqn:Eo; [done | eauto..].
  - by destruct (Hd c).
  - cbn [fs stdout]. rewrite ?fs_said.
    rewrite (lookup_insert_ne (fs w) out_dir out) by done.
    destruct (fs w !! out) as [[|c]|] eqn:Eo; [done | eauto..].
Qed.
End MainRun.

(** ** The matcher on objects *)

Section Objects.

Lemma best_entry_pool es proto :
  fst <$> Obj.best_entry es proto = find_best_pool (map fst es) proto.
Proof.
  unfold Obj.best_entry, find_best_pool.
  rewrite (filter_map_bool fst (project_chain_match proto)).
  rewrite (filter_map_bool fst (symbol_match _)).
  set (kept := List.filter (fun e => project_chain_match proto (fst e)) es).
  set (exact := List.filter (fun e => symbol_match _ (fst e)) kept).
  assert (E : match map fst exact with
              | [] => map fst kept
              | _ :: _ => map fst exact
              end = map fst (match exact with [] => kept | _ :: _ => exact end))
    by (by destruct exact).
  rewrite E, (py_sort_map fst tvl_lt Obj.entry_lt) by done.
  symmetry. apply head_map.
Qed.

Lemma valid_mono h h' es : h ⊆ h' -> Obj.valid h es -> Obj.valid h' es.
Proof.
  intros Hsub Hes. eapply Forall_impl; [exact Hes|]. intros e He.
  simpl in *. by eapply lookup_weaken.
Qed.

Lemma valid_filter h (test : Obj.entry -> bool) es :
  Obj.valid h es -> Obj.valid h (List.filter test es).
Proof.
  unfold Obj.valid. rewrite !Forall_forall. intros H e He.
  apply H. apply list_elem_of_In in He. apply filter_In in He as [He _].
  by apply list_elem_of_In.
Qed.

Lemma select_run test h es :
  Obj.valid h es ->
  Obj.select test (map snd es) h
  = Some (map snd (List.filter (fun e => test (fst e)) es), h).
Proof.
  induction 1 as [|[p r] es He Hes IH]; [done|].
  simpl in He. simpl.
  unfold mbind, Obj.Py_bind. unfold Obj.get_dict at 1. rewrite He.
  fold (@mbind Obj.Py _). unfold mbind, Obj.Py_bind in IH |- *. rewrite IH.
  unfold mret, Obj.Py_ret. by destruct (test p).
Qed.

Lemma with_keys_run key h es :
  Obj.valid h es ->
  Obj.with_keys key (map snd es) h
  = Some (map (fun e => (key (fst e), snd e)) es, h).
Proof.
  induction 1 as [|[p r] es He Hes IH]; [done|].
  simpl in He. simpl.
  unfold mbind, Obj.Py_bind. unfold Obj.get_dict at 1. rewrite He.
  unfold mbind, Obj.Py_bind in IH |- *. by rewrite IH.
Qed.

Lemma sort_in_place_run h l es :
  Obj.holds h l es ->
  Obj.sort_in_place tvl_key l h
  = Some (tt, <[l := Obj.List (map snd (py_sort Obj.entry_lt true es))]> h).
Proof.
  intros [Hl Hes]. unfold Obj.sort_in_place, mbind, Obj.Py_bind.
  unfold Obj.get_list. rewrite Hl. rewrite with_keys_run by done.
  unfold Obj.set_list. rewrite Hl. do 3 f_equal.
  rewrite (py_sort_map (fun e : Obj.entry => (tvl_key (fst e), snd e))
             (fun a b => (fst a <? fst b)%float) Obj.entry_lt) by done.
  rewrite map_map. done.
Qed.

End Objects.

Section Run.

Lemma find_best_pool_run h pools es proto :
  Obj.holds h pools es ->
  exists h',
    Obj.find_best_pool pools proto h
    = Some (snd <$> Obj.best_entry es proto, h')
    /\ h ⊆ h'.
Proof.
  intros [Hl Hes].
  unfold Obj.find_best_pool, Obj.best_entry, mbind, Obj.Py_bind.
  unfold Obj.get_list at 1. rewrite Hl.
  rewrite (select_run _ h es Hes).
  set (kept := List.filter (fun e => project_chain_match proto (fst e)) es).
  assert (Hkept : Obj.valid h kept) by by apply valid_filter.
  unfold Obj.new_list at 1.
  set (c := fresh (dom h)). set (h1 := <[c := Obj.List (map snd kept)]> h).
  assert (Hc : h !! c = None) by apply not_elem_of_dom, is_fresh.
  assert (H01 : h ⊆ h1) by by apply insert_subseteq.
  unfold Obj.get_list at 1. unfold h1 at 1. rewrite lookup_insert_eq.
  rewrite (select_run _ h1 kept) by by eapply valid_mono.
  set (exact := List.filter (fun e => symbol_match _ (fst e)) kept).
  assert (Hexact : Obj.valid h1 exact)
    by (apply valid_filter; by eapply valid_mono).
  unfold Obj.new_list.
  set (e := fresh (dom h1)). set (h2 := <[e := Obj.List (map snd exact)]> h1).
  assert (He : h1 !! e = None) by apply not_elem_of_dom, is_fresh.
  assert (H12 : h1 ⊆ h2) by by apply insert_subseteq.
  assert (Hce : c <> e).
  { intros <-. unfold h1 in He. by rewrite lookup_insert_eq in He. }
  set (cands := match exact with [] => kept | _ :: _ => exact end).
  set (target := match map snd exact with [] => c | _ :: _ => e end).
  assert (Hholds : Obj.holds h2 target cands).
  { unfold target, cands. destruct exact as [|x exact'].
    - split; [| eapply valid_mono; [| exact Hkept]; by etrans].
      unfold h2, h1. by rewrite lookup_insert_ne, lookup_insert_eq.
    - split; [apply lookup_insert_eq | by eapply valid_mono]. }
  rewrite (sort_in_place_run h2 target cands Hholds).
  unfold Obj.get_list. rewrite lookup_insert_eq.
  eexists. split.
  - unfold mret, Obj.Py_ret. by rewrite head_map.
  - apply map_subseteq_spec. intros l o Hlo.
    assert (l <> c) by congruence.
    assert (l <> e).
    { intros ->. eapply lookup_weaken in Hlo; [| exact H01]. congruence. }
    assert (l <> target) by (unfold target; by destruct (map snd exact)).
    rewrite lookup_insert_ne by done.
    unfold h2, h1. by rewrite !lookup_insert_ne.
Qed.

Lemma holds_mono h h' l es : h ⊆ h' -> Obj.holds h l es -> Obj.holds h' l es.
Proof.
  intros Hsub [Hl Hes]. split; [by eapply lookup_weaken | by eapply valid_mono].
Qed.

End Run.

Lemma best_entry_elem es proto e : Obj.best_entry es proto = Some e -> e ∈ es.
Proof.
  unfold Obj.best_entry.
  set (kept := List.filter (fun e => project_chain_match proto (fst e)) es).
  set (exact := List.filter (fun e => symbol_match _ (fst e)) kept).
  set (cands := match exact with [] => kept | _ :: _ => exact end).
  intros H. assert (Hin : In e cands).
  { apply (Permutation_in _ (py_sort_perm Obj.entry_lt cands)).
    destruct (py_sort Obj.entry_lt true cands); [done|].
    injection H as ->. by left. }
  apply list_elem_of_In.
  assert (In e kept) as [? _]%filter_In; [| done].
  unfold cands in Hin. destruct exact eqn:E; [done|].
  rewrite <- E in Hin. unfold exact in Hin. by apply filter_In in Hin as [? _].
Qed.


(** * The claims of the specification *)








(** C4: the TVL formatter gives the placeholder for an absent or zero value
    and otherwise the rendering in the unit of the greatest threshold that
    the value reaches: billions with one decimal, millions and thousands
    with none; 999, 1,500,000 and 2,300,000,000 render as in the
    specification. *)
Theorem fmt_tvl_units :
  fmt_tvl None = placeholder
  /\ (forall v, PyFloat.falsy v = true <-> exists s, Prim2SF v = S754_zero s)
  /\ (forall v, PyFloat.falsy v = true -> fmt_tvl (Some v) = placeholder)
  /\ (forall v, PyFloat.falsy v = false -> fmt_tvl (Some v) = Spec.render_tvl v)
  /\ (forall v, Spec.le 1e9 v ->
        Spec.render_tvl v = "$" +:+ PyFloat.format_f 1 (v / 1e9) +:+ "B")
  /\ (forall v, ~ Spec.le 1e9 v -> Spec.le 1e6 v ->
        Spec.render_tvl v = "$" +:+ PyFloat.format_f 0 (v / 1e6) +:+ "M")
  /\ (forall v, ~ Spec.le 1e9 v -> ~ Spec.le 1e6 v ->
        Spec.render_tvl v = "$" +:+ PyFloat.format_f 0 (v / 1e3) +:+ "K")
  /\ fmt_tvl (Some 999%float) = "$1K"
  /\ fmt_tvl (Some 1500000%float) = "$2M"
  /\ fmt_tvl (Some 2300000000%float) = "$2.3B".
Proof.
  split; [done|]. split; [apply falsy_iff_zero|].
  split; [by intros v H; unfold fmt_tvl; rewrite H|].
  split; [apply fmt_tvl_render|].
  split; [apply render_tvl_billions|].
  split; [apply render_tvl_millions|].
  split; [apply render_tvl_thousands|].
  repeat split; vm_compute; reflexivity.
Qed.


(** C10: a TVL that is NaN or below zero is not given the placeholder: it
    is rendered in thousands; -5000 renders as $-5K and NaN as $nanK. *)
Theorem fmt_tvl_nan_or_negative v :
  PyFloat.is_nan v = true \/ Spec.lt v 0 ->
  fmt_tvl (Some v) = "$" +:+ PyFloat.format_f 0 (v / 1e3) +:+ "K"
  /\ fmt_tvl (Some v) <> placeholder
  /\ fmt_tvl (Some (-5000)%float) = "$-5K"
  /\ fmt_tvl (Some nan) = "$nanK".
Proof.
  intros H.
  assert (E : fmt_tvl (Some v) = "$" +:+ PyFloat.format_f 0 (v / 1e3) +:+ "K").
  { unfold fmt_tvl, PyFloat.falsy, PyFloat.ge. destruct H as [H | H].
    - destruct (nan_compare v 0) as (_ & _ & ->); [by left|].
      destruct (nan_compare 1e9 v) as (_ & -> & _); [by right|].
      by destruct (nan_compare 1e6 v) as (_ & -> & _); [by right|].
    - destruct (lt_not_eqb _ _ H) as [-> _].
      destruct (1e9 <=? v)%float eqn:E9.
      { pose proof (le_lt_trans _ _ _ E9 H) as F. vm_compute in F. discriminate. }
      destruct (1e6 <=? v)%float eqn:E6; [| done].
      pose proof (le_lt_trans _ _ _ E6 H) as F. vm_compute in F. discriminate. }
  split; [done|]. split; [rewrite E; discriminate|].
  split; vm_compute; reflexivity.
Qed.

Lemma fmt_tvl_nan_or_negative_witness :
  fmt_tvl (Some (-0.5)%float)
  = "$" +:+ PyFloat.format_f 0 ((-0.5) / 1e3) +:+ "K"
  /\ fmt_tvl (Some (-0.5)%float) <> placeholder
  /\ fmt_tvl (Some (-5000)%float) = "$-5K"
  /\ fmt_tvl (Some nan) = "$nanK".
Proof.
  apply (fmt_tvl_nan_or_negative (-0.5)%float). right. vm_compute. reflexivity.
Defined.

(** C6: the card of a match result carries the base-plus-rewards sub-line
    if and only if the result has a pool whose base APY and reward APY are
    both present and above zero. *)
Theorem sub_line_shown_iff (i : nat) (r : result) :
  sub_line (render_card i r) <> "" <-> Spec.both_positive (snd r).
Proof.
  destruct r as [proto pool]. unfold render_card.
  destruct (risk_map (Proto.risk proto)) as [label cls]. simpl.
  rewrite render_sub_line_shown. unfold Spec.both_positive.
  destruct pool as [p|]; simpl.
  - split.
    + intros (x & y & Hx & Hy & ? & ?). by exists p, x, y.
    + intros (p' & x & y & [= <-] & Hx & Hy & ? & ?). by exists x, y.
  - split; [by intros (? & ? & ? & _) | by intros (? & ? & ? & ? & _)].
Qed.



(** C9: a call of the matcher leaves every object of the store as it was,
    the list of pools and each pool dictionary among them; what it writes
    are list objects of its own.  A later call on the same list therefore
    selects what it would have selected before. *)
Theorem find_best_pool_frame h pools es proto :
  Obj.holds h pools es ->
  exists r h',
    Obj.find_best_pool pools proto h = Some (r, h')
    /\ (forall l o, h !! l = Some o -> h' !! l = Some o)
    /\ Obj.holds h' pools es
    /\ (forall proto',
          fst <$> Obj.find_best_pool pools proto' h'
          = fst <$> Obj.find_best_pool pools proto' h).
Proof.
  intros H. destruct (find_best_pool_run h pools es proto H) as (h' & E & Hsub).
  exists (snd <$> Obj.best_entry es proto), h'.
  split; [done|]. split; [by apply map_subseteq_spec|].
  assert (H' : Obj.holds h' pools es) by by eapply holds_mono.
  split; [done|]. intros proto'.
  destruct (find_best_pool_run h pools es proto' H) as (h1 & -> & _).
  by destruct (find_best_pool_run h' pools es proto' H') as (h2 & -> & _).
Qed.

Lemma find_best_pool_frame_witness :
  exists r h',
    Obj.find_best_pool 3%positive aave_v3 two_pools_heap = Some (r, h')
    /\ (forall l o, two_pools_heap !! l = Some o -> h' !! l = Some o)
    /\ Obj.holds h' 3%positive two_pools
    /\ (forall proto',
          fst <$> Obj.find_best_pool 3%positive proto' h'
          = fst <$> Obj.find_best_pool 3%positive proto' two_pools_heap).
Proof.
  apply (find_best_pool_frame two_pools_heap 3%positive two_pools aave_v3).
  split; [reflexivity | repeat constructor].
Defined.

(** C8: the matcher is deterministic.  On a store whose list holds the
    collection [es], the call returns the reference of the entry that the
    matcher on values selects; a second call, made in the store that the
    first one left, returns the same reference; and so does a call in any
    other store whose list holds the same collection. *)
Theorem find_best_pool_deterministic h pools es proto :
  Obj.holds h pools es ->
  exists (b : option Obj.entry) h1 h2,
    Obj.find_best_pool pools proto h = Some (snd <$> b, h1)
    /\ Obj.find_best_pool pools proto h1 = Some (snd <$> b, h2)
    /\ fst <$> b = find_best_pool (map fst es) proto
    /\ (forall p l, b = Some (p, l) ->
          (p, l) ∈ es /\ h !! l = Some (Obj.Dict p))
    /\ (forall h0 pools0,
          Obj.holds h0 pools0 es ->
          fst <$> Obj.find_best_pool pools0 proto h0 = Some (snd <$> b)).
Proof.
  intros H. destruct (find_best_pool_run h pools es proto H) as (h1 & E1 & Hsub).
  assert (H1 : Obj.holds h1 pools es) by by eapply holds_mono.
  destruct (find_best_pool_run h1 pools es proto H1) as (h2 & E2 & _).
  exists (Obj.best_entry es proto), h1, h2.
  split; [done|]. split; [done|]. split; [apply best_entry_pool|]. split.
  - intros p l Hb. apply best_entry_elem in Hb. split; [done|].
    destruct H as [_ Hes]. unfold Obj.valid in Hes.
    rewrite Forall_forall in Hes. by apply (Hes (p, l)).
  - intros h0 pools0 H0.
    by destruct (find_best_pool_run h0 pools0 es proto H0) as (h' & -> & _).
Qed.

Lemma find_best_pool_deterministic_witness :
  exists (b : option Obj.entry) h1 h2,
    Obj.find_best_pool 3%positive aave_v3 two_pools_heap = Some (snd <$> b, h1)
    /\ Obj.find_best_pool 3%positive aave_v3 h1 = Some (snd <$> b, h2)
    /\ fst <$> b = find_best_pool (map fst two_pools) aave_v3
    /\ (forall p l, b = Some (p, l) ->
          (p, l) ∈ two_pools /\ two_pools_heap !! l = Some (Obj.Dict p))
    /\ (forall h0 pools0,
          Obj.holds h0 pools0 two_pools ->
          fst <$> Obj.find_best_pool pools0 aave_v3 h0 = Some (snd <$> b)).
Proof.
  apply (find_best_pool_deterministic two_pools_heap 3%positive two_pools aave_v3).
  split; [reflexivity | repeat constructor].
Defined.

(** * Further properties *)

(** ** The fetch and the run *)

Lemma fetch_pools_returns_inv net w pools w' :
  fetch_pools net w = (Return pools, w') ->
  (exists status, net = Answered status (Data pools) /\ accepted status)
  /\ w' = said w [Fetching; Fetched (length pools)].
Proof.
  rewrite fetch_pools_unfold. unfold accepted.
  destruct net as [| | status b]; try discriminate.
  destruct ((400 <=? status)%nat && (status <? 600)%nat) eqn:E;
    [discriminate|].
  destruct b; try discriminate. intros [= -> <-].
  split; [| done]. exists status. split; [done|].
  apply andb_false_iff in E. rewrite Nat.leb_gt, Nat.ltb_ge in E. lia.
Qed.



Lemma said_said w a b : said (said w a) b = said w (a ++ b).
Proof. unfold said. simpl. by rewrite app_assoc. Qed.

Lemma out_ne : out_dir <> out.
Proof. done. Qed.

(** What [main] does with the pools of an accepted response. *)
Lemma main_fetched status pools now w :
  accepted status ->
  main (Answered status (Data pools)) now w
  = let w1 := said w (Fetching :: Fetched (length pools) :: status_lines pools) in
    let html := page_of pools now in
    match fs w !! out_dir with
    | Some (File _) => (Raise (FileExistsError out_dir), w1)
    | _ =>
        match fs w !! out with
        | Some Dir =>
            (Raise (IsADirectoryError out),
             {| stdout := stdout w1; fs := <[out_dir := Dir]> (fs w) |})
        | _ =>
            (Return tt,
             {| stdout := stdout w1 ++ [Generated out html];
                fs := <[out := File html]> (<[out_dir := Dir]> (fs w)) |})
        end
    end.
Proof.
  intros Hs. unfold main, mbind, IO_bind, bind.
  rewrite fetch_pools_returns by done.
  rewrite match_protocols_run, app_nil_l, said_said.
  fold (status_lines pools). fold (page_of pools now).
  change ([Fetching; Fetched (length pools)] ++ status_lines pools)%list
    with (Fetching :: Fetched (length pools) :: status_lines pools).
  set (w1 := said w _). set (html := page_of pools now).
  unfold mkdir_exist_ok, write_text, print.
  change (fs w1) with (fs w).
  destruct (fs w !! out_dir) as [[|c]|] eqn:Ed; cbn [fs stdout].
  - change (fs w1) with (fs w). rewrite (insert_id (fs w) out_dir Dir Ed).
    by destruct (fs w !! out) as [[|c]|] eqn:Eo.
  - done.
  - rewrite (lookup_insert_ne (fs w) out_dir out) by done.
    by destruct (fs w !! out) as [[|c]|] eqn:Eo.
Qed.

Lemma main_returns_inv net now w w1 :
  main net now w = (Return tt, w1) ->
  exists status pools,
    net = Answered status (Data pools) /\ accepted status
    /\ (forall c, fs w !! out_dir <> Some (File c))
    /\ fs w !! out <> Some Dir
    /\ w1 = {| stdout := stdout w
                         ++ Fetching :: Fetched (length pools)
                              :: status_lines pools
                         ++ [Generated out (page_of pools now)];
               fs := <[out := File (page_of pools now)]>
                       (<[out_dir := Dir]> (fs w)) |}.
Proof.
  intros H. destruct (fetch_pools net w) as [[pools|e] w0] eqn:E.
  2: { by rewrite (main_fetch_raises _ now _ _ _ E) in H. }
  apply fetch_pools_returns_inv in E as [(status & -> & Hs) ->].
  rewrite main_fetched in H by done. cbn zeta in H.
  exists status, pools. split; [done|]. split; [done|].
  destruct (fs w !! out_dir) as [[|c]|] eqn:Ed; try done;
    destruct (fs w !! out) as [[|c]|] eqn:Eo; try done;
    injection H as <-; repeat (split; [done|]);
    unfold said; cbn [stdout fs]; f_equal;
    by rewrite <- app_assoc.
Qed.

(** X3: whenever [main] raises, for whatever reason, the output file is as
    it was and so is every path but the output directory, and the closing
    line was not printed; whenever it returns, the response was an
    accepted one with pools, and the file system differs from the earlier
    one by the output directory and the page written over the output
    file. *)
Theorem main_failure_keeps_output net now w :
  match main net now w with
  | (Raise e, w') =>
      fs w' !! out = fs w !! out
      /\ (forall path, path <> out_dir -> fs w' !! path = fs w !! path)
      /\ (forall html, Generated out html ∉ drop (length (stdout w)) (stdout w'))
  | (Return _, w') =>
      exists status pools,
        net = Answered status (Data pools) /\ accepted status
        /\ fs w' = <[out := File (page_of pools now)]>
                     (<[out_dir := Dir]> (fs w))
  end.
Proof.
  destruct (fetch_pools net w) as [[pools|e] w0] eqn:E.
  2: { rewrite (main_fetch_raises _ now _ _ _ E).
       apply fetch_pools_raises in E as ->. repeat split; try done.
       intros html. unfold said. cbn [stdout]. rewrite drop_app_length.
       by intros [=]%list_elem_of_singleton. }
  apply fetch_pools_returns_inv in E as [(status & -> & Hs) ->].
  rewrite main_fetched by done. cbn zeta.
  assert (Hlines : forall html,
    Generated out html ∉ Fetching :: Fetched (length pools) :: status_lines pools).
  { intros html [[=] | [[=] | H]%elem_of_cons]%elem_of_cons.
    unfold status_lines in H. apply list_elem_of_fmap in H as (proto & H & _).
    by destruct (find_best_pool pools proto). }
  destruct (fs w !! out_dir) as [[|c]|] eqn:Ed;
    [destruct (fs w !! out) as [[|c]|] eqn:Eo | |
     destruct (fs w !! out) as [[|c]|] eqn:Eo];
    cbn [fs said stdout]; rewrite ?drop_app_length; eauto;
    (split; [by rewrite ?lookup_insert_ne |]);
    (split; [by intros; rewrite ?lookup_insert_ne | done]).
Qed.

(** X4: with an accepted response, an output directory that is not a file
    and an output path that is not a directory, [main] returns: it creates
    the directory when it is missing, replaces the output file by the page
    whatever the file held, touches no other path, and prints the two
    lines of the fetch, one status line per descriptor and the closing
    line. *)
Theorem main_writes_page status pools now w :
  accepted status ->
  (forall c, fs w !! out_dir <> Some (File c)) ->
  fs w !! out <> Some Dir ->
  main (Answered status (Data pools)) now w
  = (Return tt,
     {| stdout := stdout w
                  ++ Fetching :: Fetched (length pools) :: status_lines pools
                  ++ [Generated out (page_of pools now)];
        fs := <[out := File (page_of pools now)]>
                (<[out_dir := Dir]> (fs w)) |}).
Proof.
  intros Hs Hd Ho. rewrite main_fetched by done. cbn zeta.
  destruct (fs w !! out_dir) as [[|c]|] eqn:Ed; [| by destruct (Hd c) |];
    destruct (fs w !! out) as [[|c]|] eqn:Eo; try done;
    unfold said; cbn [stdout fs]; by rewrite <- app_assoc.
Qed.

Lemma main_writes_page_witness :
  main (Answered 200 (Data five_pools)) noon empty_world
  = (Return tt,
     {| stdout := stdout empty_world
                  ++ Fetching :: Fetched (length five_pools)
                       :: status_lines five_pools
                  ++ [Generated out (page_of five_pools noon)];
        fs := <[out := File (page_of five_pools noon)]>
                (<[out_dir := Dir]> (fs empty_world)) |}).
Proof.
  apply (main_writes_page 200 five_pools noon empty_world).
  - left. lia.
  - intros c. discriminate.
  - discriminate.
Defined.

(** X5: after a run that returned, a later run with an accepted response
    returns too (the file system that a run leaves never makes the next one
    fail); it changes the output file only, and with the same response and
    time it leaves the file system as it was. *)
Theorem main_rerun net now w w1 status' pools' now' :
  main net now w = (Return tt, w1) ->
  accepted status' ->
  exists w2,
    main (Answered status' (Data pools')) now' w1 = (Return tt, w2)
    /\ fs w2 = <[out := File (page_of pools' now')]> (fs w1)
    /\ (net = Answered status' (Data pools') -> now' = now -> fs w2 = fs w1).
Proof.
  intros H Hs'.
  apply main_returns_inv in H as (status & pools & -> & Hs & _ & _ & ->).
  rewrite main_fetched by done. cbn zeta. cbn [fs stdout].
  rewrite (lookup_insert_ne _ out out_dir) by done.
  rewrite !lookup_insert_eq.
  eexists. split; [done|]. cbn [fs].
  assert (E : forall (m : gmap string node) html,
             <[out_dir := Dir]> (<[out := html]> (<[out_dir := Dir]> m))
             = <[out := html]> (<[out_dir := Dir]> m)).
  { intros m html. apply insert_id.
    by rewrite lookup_insert_ne, lookup_insert_eq. }
  rewrite E. split; [done|].
  intros [= _ ->] ->. by rewrite insert_insert_eq.
Qed.

Lemma main_rerun_witness :
  let first := main (Answered 200 (Data five_pools)) noon empty_world in
  exists w2,
    main (Answered 203 (Data nan_pools)) noon (snd first) = (Return tt, w2)
    /\ fs w2 = <[out := File (page_of nan_pools noon)]> (fs (snd first))
    /\ (Answered 200 (Data five_pools) = Answered 203 (Data nan_pools) ->
        noon = noon -> fs w2 = fs (snd first)).
Proof.
  apply (main_rerun (Answered 200 (Data five_pools)) noon empty_world).
  - rewrite main_fetched by (left; lia). reflexivity.
  - left. lia.
Defined.

(** ** The matcher *)

Lemma first_max_None l : first_max l = None <-> l = [].
Proof.
  destruct l as [|x l]; simpl; [done|].
  split; [| done]. destruct (first_max l) as [b|]; [by destruct (tvl_lt x b) | done].
Qed.

Lemma candidate_none pools proto :
  (forall p, p ∈ pools -> Spec.candidate pools proto p = false)
  <-> (forall p, p ∈ pools -> Spec.keeps proto p = false).
Proof.
  unfold Spec.candidate.
  destruct (existsb (fun q => Spec.keeps proto q && Spec.has_symbol proto q)
              pools) eqn:Ex.
  - split; intros H p Hp; [| by rewrite (H p Hp)].
    apply existsb_exists in Ex as (q & Hq%list_elem_of_In & Hk).
    specialize (H q Hq). apply andb_true_iff in Hk as [Hk Hs].
    by rewrite Hk, Hs in H.
  - split; intros H p Hp; specialize (H p Hp).
    + by rewrite andb_true_r in H.
    + by rewrite H.
Qed.






Lemma ci_equal_lower s t :
  PyStr.ci_equal s t = true -> PyStr.lower s = PyStr.lower t.
Proof. rewrite <- StrFacts.eqb_lower. apply String.eqb_eq. Qed.

Lemma ci_equal_upper s t :
  PyStr.ci_equal s t = true -> PyStr.upper s = PyStr.upper t.
Proof.
  rewrite <- (StrFacts.eqb_fold _ StrFacts.upper_char_same).
  apply String.eqb_eq.
Qed.

(** X9: the selection depends on the matching keys of the descriptor up
    to case only: two descriptors whose project, symbol and search chain
    are equal up to the case of their letters select the same pool. *)
Theorem find_best_pool_case_insensitive pools a b :
  same_keys a b -> find_best_pool pools a = find_best_pool pools b.
Proof.
  intros (Hp%ci_equal_lower & Hs%ci_equal_upper & Hc%ci_equal_lower).
  unfold find_best_pool, project_chain_match. by rewrite Hp, Hs, Hc.
Qed.

Lemma find_best_pool_case_insensitive_witness :
  find_best_pool five_pools aave_v3 = find_best_pool five_pools aave_v3_shouted.
Proof.
  apply (find_best_pool_case_insensitive five_pools aave_v3 aave_v3_shouted).
  repeat split; vm_compute; reflexivity.
Defined.

Lemma contains_empty s : PyStr.contains s "" = true -> s = "".
Proof. by destruct s. Qed.

Lemma lower_empty s : PyStr.lower s = "" -> s = "".
Proof. by destruct s. Qed.

(** X10: a descriptor with a non-empty project identifier, as every
    descriptor of the registry has, never selects a pool whose project is
    missing, null or empty; a selected pool is therefore a non-empty
    dictionary, and the test [if pool] of [main] fails for no selected
    pool. *)
Theorem found_pool_has_project :
  Forall (fun proto => Proto.project proto <> "") PROTOCOLS
  /\ forall pools proto p,
       Proto.project proto <> "" ->
       find_best_pool pools proto = Some p ->
       exists s, Pool.project p = Some s /\ s <> "".
Proof.
  split; [repeat constructor; discriminate|].
  intros pools proto p Hne [_ Hc]%find_best_pool_candidate.
  unfold Spec.candidate in Hc. apply andb_true_iff in Hc as [Hk _].
  rewrite <- project_chain_match_keeps in Hk.
  apply andb_true_iff in Hk as [Hk _].
  destruct (Pool.project p) as [s|]; simpl in Hk.
  - exists s. split; [done|]. intros ->.
    by apply contains_empty, lower_empty in Hk.
  - by apply contains_empty, lower_empty in Hk.
Qed.

Lemma found_pool_has_project_witness :
  exists s,
    Pool.project (pool_of "aave-v3" "Ethereum" "USDC" None (Some 5%float))
    = Some s /\ s <> "".
Proof.
  apply (proj2 found_pool_has_project five_pools aave_v3).
  - discriminate.
  - vm_compute. reflexivity.
Defined.

(** ** The formatters and the page *)


Lemma render_cards_lookup k results i :
  render_cards k results !! i = render_card (k + i) <$> results !! i.
Proof.
  revert k i. induction results as [|r rest IH]; intros k [|i]; simpl; try done.
  - by rewrite Nat.add_0_r.
  - rewrite IH. by rewrite Nat.add_succ_r.
Qed.

Lemma render_cards_length k results :
  length (render_cards k results) = length results.
Proof. revert k. induction results; intros k; simpl; [done|]. by rewrite IHresults. Qed.

(** X12: the page has as many cards as there are results, which is the
    number shown as the count of protocols; the card at index [i] renders
    the result at index [i] and its animation delay is [60 * i]. *)
Theorem cards_follow_results results now :
  let P := build_html results now in
  length (cards_html P) = length results
  /\ stat_protocols P = pretty (length (cards_html P))
  /\ forall i c,
       cards_html P !! i = Some c ->
       card_delay c = (i * 60)%nat
       /\ exists r, results !! i = Some r /\ c = render_card i r.
Proof.
  cbn zeta. unfold build_html. cbn [cards_html stat_protocols].
  rewrite render_cards_length. split; [done|]. split; [done|].
  intros i c. rewrite render_cards_lookup. simpl.
  destruct (results !! i) as [r|]; [| done]. intros [= <-].
  split; [| eauto]. destruct r as [proto pool]. unfold render_card.
  by destruct (risk_map (Proto.risk proto)).
Qed.

Lemma py_max_elem x l : py_max x l ∈ x :: l.
Proof.
  revert x. induction l as [|y l IH]; intros x; [left|].
  change (py_max x (y :: l)) with (py_max (if PyFloat.gt y x then y else x) l).
  destruct (PyFloat.gt y x).
  - right. apply IH.
  - specialize (IH x). apply elem_of_cons in IH as [-> | IH];
      [left | right; by right].
Qed.

(** X13: when some result has a present APY, the maximum and the median
    shown are the renderings of two of the present APYs, NaN or not; when
    none of them is NaN the median is at most the maximum. *)
Theorem statistics_are_present_apys results now :
  present_apys results <> [] ->
  exists mx md,
    mx ∈ present_apys results /\ md ∈ present_apys results
    /\ max_apy (build_html results now) = percent mx
    /\ median_apy (build_html results now) = percent md
    /\ (Forall not_nan (present_apys results) -> Spec.le md mx).
Proof.
  intros Hne.
  destruct (build_html_stats results now) as (_ & Hmax & Hmed).
  set (apys := present_apys results) in *.
  assert (Hlen : length (sorted apys) = length apys)
    by apply Permutation_length, sorted_perm.
  destruct (lookup_lt_is_Some_2 (sorted apys) (length apys / 2)%nat) as [md Hmd].
  { rewrite Hlen. destruct apys; [done|]. simpl length. apply Nat.div_lt; lia. }
  assert (Hin : md ∈ apys).
  { rewrite <- (sorted_perm apys). by eapply list_elem_of_lookup_2. }
  destruct apys as [|a rest] eqn:E; [done|].
  exists (py_max a rest), md. rewrite Hmax, Hmed, Hmd.
  split; [apply py_max_elem|]. repeat (split; [done|]).
  intros Hn. by apply (py_max_spec a rest Hn).
Qed.

Lemma statistics_are_present_apys_witness :
  let results := [with_apy 4; (aave_v3, None); with_apy 1.5] in
  exists mx md,
    mx ∈ present_apys results /\ md ∈ present_apys results
    /\ max_apy (build_html results noon) = percent mx
    /\ median_apy (build_html results noon) = percent md
    /\ (Forall not_nan (present_apys results) -> Spec.le md mx).
Proof.
  apply (statistics_are_present_apys
           [with_apy 4; (aave_v3, None); with_apy 1.5] noon).
  discriminate.
Defined.

Lemma line_agrees_card i proto pool :
  line_agrees (report proto pool) (render_card i (proto, pool)).
Proof.
  unfold render_card. destruct (risk_map (Proto.risk proto)) as [label cls].
  by destruct pool.
Qed.

(** X14: the status lines that a run prints and the cards that it renders
    agree: for each descriptor, in order, a found line carries the name,
    the APY text and the TVL text of the card, and a not-found line stands
    by a card that shows the two placeholders. *)
Theorem log_agrees_with_page pools now :
  Forall2 line_agrees (status_lines pools) (cards_html (page_of pools now)).
Proof.
  unfold status_lines, page_of, build_html. cbn [cards_html].
  generalize 0%nat. generalize PROTOCOLS.
  induction l as [|proto rest IH]; intros k; simpl; constructor.
  - apply line_agrees_card.
  - apply IH.
Qed.
